(** * Conditional mean spectrum vector (Kishida 2017) and the Idriss (2014)
    parameter table of pygmm, embedded in Rocq.

    [src/pygmm/kishida_2017.py] is embedded function by function: NumPy's
    1-D arrays are lists, 2-D arrays are lists of rows that carry their column
    count (so that an empty block keeps its shape), a masked array is a record
    of its data and its mask, and Python exceptions are the [Raise] branch of
    a result type.  The embedding is parametric in the number type and its
    operations: a theorem that needs an arithmetic law says so through a
    class of laws, which exact arithmetic (the rationals below) satisfies. *)

From Stdlib Require Import ZArith QArith Qcanon.
From stdpp Require Import base list sorting strings.

Close Scope Qc_scope.
Close Scope Q_scope.
Close Scope Z_scope.

(** ** Exceptions and results *)

Inductive exn : Type :=
  | ValueError (msg : string)
  | IndexError
  | LinAlgError.

Inductive result (A : Type) : Type :=
  | Ok (a : A)
  | Raise (e : exn).
Arguments Ok {A} a.
Arguments Raise {A} e.

(** Sequencing: the first exception raised ends the computation. *)
Definition rbind {A B} (k : A → result B) (m : result A) : result B :=
  match m with
  | Ok a => k a
  | Raise e => Raise e
  end.

#[global] Instance result_bind : MBind result := @rbind.
#[global] Instance result_ret : MRet result := @Ok.

(** ** Numbers *)

(** The operations of the array element type that the solver uses:
    [0.], [+], [-], [*], [np.sqrt] and [>] (as [ltb a b] for [b > a]). *)
Class Num (F : Type) : Type := {
  zero : F;
  add : F → F → F;
  sub : F → F → F;
  mul : F → F → F;
  sqrt : F → F;
  ltb : F → F → bool;
}.

(** Laws of exact arithmetic under which the covariance matrix
    [D @ Correl @ D] has the entries [std i * std j * correl i j]. *)
Class SemiringLaws (F : Type) `{Num F} : Prop := {
  add_zero_l : ∀ x : F, add zero x = x;
  add_zero_r : ∀ x : F, add x zero = x;
  mul_zero_l : ∀ x : F, mul zero x = zero;
  mul_zero_r : ∀ x : F, mul x zero = zero;
  mul_comm' : ∀ x y : F, mul x y = mul y x;
  mul_assoc' : ∀ x y z : F, mul x (mul y z) = mul (mul x y) z;
}.

(** Laws of the comparison: a strict order, and [b - a > 0] exactly when
    [b > a]. *)
Class OrderLaws (F : Type) `{Num F} : Prop := {
  ltb_trans : ∀ x y z : F, ltb x y = true → ltb y z = true → ltb x z = true;
  ltb_asym : ∀ x y : F, ltb x y = true → ltb y x = false;
  ltb_sub : ∀ x y : F, ltb zero (sub y x) = ltb x y;
}.

(** Reading an array out of its bounds, which the solver never does, reads
    [zero] in the model. *)
#[global] Instance num_inhabited `{Num F} : Inhabited F := populate zero.

(** ** Arrays *)

(** [np.ma.masked_array]: the data and, entry by entry, whether it is
    masked.  NumPy keeps both of the same shape.  (The scalar [nomask] of an
    array built without a mask is not part of the model.) *)
Record masked_array (F : Type) : Type := MaskedArray {
  ma_data : list F;
  ma_mask : list bool;
}.
Arguments MaskedArray {F} _ _.
Arguments ma_data {F} _.
Arguments ma_mask {F} _.

(** A 2-D array: its rows and the length of each row. *)
Record matrix (F : Type) : Type := Matrix {
  mcols : nat;
  mrows : list (list F);
}.
Arguments Matrix {F} _ _.
Arguments mcols {F} _.
Arguments mrows {F} _.

Section arrays.
Context {A : Type}.

(** The entries of [a] where the boolean array [m] is [True]. *)
Fixpoint select (a : list A) (m : list bool) : list A :=
  match a, m with
  | x :: a', b :: m' => if b then x :: select a' m' else select a' m'
  | _, _ => []
  end.

(** [a[m]] for a boolean array [m]: NumPy raises [IndexError] when the
    lengths differ. *)
Definition bool_index (a : list A) (m : list bool) : result (list A) :=
  if decide (length a = length m) then Ok (select a m) else Raise IndexError.

(** [a[idx]] for an integer array [idx] (indices are never negative
    here): [IndexError] when an index is out of bounds. *)
Definition int_index (a : list A) (idx : list nat) : result (list A) :=
  match mapM (λ i, a !! i) idx with
  | Some r => Ok r
  | None => Raise IndexError
  end.
End arrays.

(** [~mask] *)
Definition invert (m : list bool) : list bool := negb <$> m.

(** [np.all] *)
Definition np_all (l : list bool) : bool := forallb id l.

(** [np.ma.count_masked] and [masked_array.count()] *)
Definition count_masked {F} (a : masked_array F) : nat :=
  length (filter (λ b, b = true) (ma_mask a)).
Definition ma_count {F} (a : masked_array F) : nat :=
  length (filter (λ b, b = false) (ma_mask a)).

(** [a[m].data] for a masked array [a] and a boolean array [m] of its
    length. *)
Definition ma_select_data {F} (a : masked_array F) (m : list bool) : list F :=
  select (ma_data a) m.

(** ** Linear algebra on arrays *)

Section linalg.
Context {F : Type} `{Num F}.

(** [np.diff] *)
Definition np_diff (a : list F) : list F := zip_with sub (tail a) a.

(** [np.zeros] *)
Definition np_zeros (n : nat) : list F := replicate n zero.

(** [np.diag] of a 1-D array: the square matrix with [v] on its diagonal. *)
Definition diag_matrix (v : list F) : matrix F :=
  Matrix (length v) (imap (λ i x, <[i:=x]> (np_zeros (length v))) v).

(** [np.diag] of a 2-D array: its diagonal. *)
Definition diagonal (m : matrix F) : list F :=
  omap id (imap (λ i row, row !! i) (mrows m)).

(** Column [j] of a 2-D array. *)
Definition column (j : nat) (m : matrix F) : list F :=
  (λ row, row !!! j) <$> mrows m.

(** [m.T] *)
Definition transpose (m : matrix F) : matrix F :=
  Matrix (length (mrows m)) ((λ j, column j m) <$> seq 0 (mcols m)).

(** [np.vstack] of 1-D arrays: [ValueError] on an empty sequence and on rows
    of different lengths. *)
Definition vstack (rows : list (list F)) : result (matrix F) :=
  match rows with
  | [] => Raise (ValueError "need at least one array to concatenate"%string)
  | r :: _ =>
      if forallb (λ r', bool_decide (length r' = length r)) rows
      then Ok (Matrix (length r) rows)
      else Raise (ValueError "all the input array dimensions must match"%string)
  end.

(** The inner product of a row and a column. *)
Definition dot (a b : list F) : F := foldr add zero (zip_with mul a b).

(** [a @ b].  The inner dimensions agree wherever the solver multiplies, so
    the shape error of [@] has no branch here. *)
Definition matmul (a b : matrix F) : matrix F :=
  Matrix (mcols b)
         ((λ row, (λ j, dot row (column j b)) <$> seq 0 (mcols b)) <$> mrows a).

(** [a - b] on 2-D arrays of one shape. *)
Definition matsub (a b : matrix F) : matrix F :=
  Matrix (mcols a) (zip_with (zip_with sub) (mrows a) (mrows b)).

(** The slices [m[0:n, 0:k]], [m[n:, k:]], [m[0:n, k:]] and [m[n:, 0:k]]. *)
Definition slice_tt (n k : nat) (m : matrix F) : matrix F :=
  Matrix (min k (mcols m)) (take k <$> take n (mrows m)).
Definition slice_dd (n k : nat) (m : matrix F) : matrix F :=
  Matrix (mcols m - k) (drop k <$> drop n (mrows m)).
Definition slice_td (n k : nat) (m : matrix F) : matrix F :=
  Matrix (mcols m - k) (drop k <$> take n (mrows m)).
Definition slice_dt (n k : nat) (m : matrix F) : matrix F :=
  Matrix (min k (mcols m)) (take k <$> drop n (mrows m)).

(** [np.asmatrix(v).T]: the column matrix of a 1-D array. *)
Definition column_matrix (v : list F) : matrix F :=
  transpose (Matrix (length v) [v]).

(** [np.ravel] *)
Definition ravel (m : matrix F) : list F := concat (mrows m).

(** The order of two indices by their keys: [i] may come before [j] unless
    the key of [j] is smaller. *)
Definition key_le (keys : list F) : relation nat :=
  λ i j, ltb (keys !!! j) (keys !!! i) = false.

#[local] Instance key_le_dec (keys : list F) : RelDecision (key_le keys) :=
  λ i j, decide (ltb (keys !!! j) (keys !!! i) = false).

(** [np.argsort]: the indices that sort [keys].  NumPy's default sort is not
    stable; on keys without duplicates, which is what the solver sorts, every
    sort returns the same indices as this merge sort. *)
Definition argsort (keys : list F) : list nat :=
  merge_sort (key_le keys) (seq 0 (length keys)).

(** ** The solver *)

(** Modelled from the spec: [calc_correl] of [baker_jayaram_2008], which is
    not among the sources.  Given the periods and one reference period it
    returns the correlation coefficient of each period against the reference;
    the coefficient of a pair of periods is the parameter [correl]. *)
Definition calc_correl (correl : F → F → F)
    (periods : list F) (period_cond : F) : list F :=
  (λ p, correl p period_cond) <$> periods.

(** The local variables of lines 52 to 69: the grouping, the covariance
    matrix and its four blocks. *)
Record blocks : Type := Blocks {
  periods_grouped : list F;
  mat_covar : matrix F;
  n_masked : nat;
  mat_covar_11 : matrix F;
  mat_covar_22 : matrix F;
  mat_covar_12 : matrix F;
  mat_covar_21 : matrix F;
}.

Definition partition_covar (correl : F → F → F)
    (periods ln_stds : list F) (ln_psas_cond : masked_array F)
    : result blocks :=
  let mask := ma_mask ln_psas_cond in
  periods_m ← bool_index periods mask;
  periods_u ← bool_index periods (invert mask);
  let periods_grouped := periods_m ++ periods_u in
  ln_stds_m ← bool_index ln_stds mask;
  ln_stds_u ← bool_index ln_stds (invert mask);
  let mat_ln_std := diag_matrix (ln_stds_m ++ ln_stds_u) in
  stacked ←
    vstack ((λ period_cond, calc_correl correl periods_grouped period_cond)
              <$> periods_grouped);
  let mat_correl := transpose stacked in
  let mat_covar := matmul (matmul mat_ln_std mat_correl) mat_ln_std in
  let n := count_masked ln_psas_cond in
  Ok (Blocks periods_grouped mat_covar n
        (slice_tt n n mat_covar) (slice_dd n n mat_covar)
        (slice_td n n mat_covar) (slice_dt n n mat_covar)).

(** The local variables of lines 70 to 83: the conditional mean and standard
    deviation in the grouped order. *)
Definition cond_grouped (inv : matrix F → option (matrix F))
    (ln_psas : list F) (ln_psas_cond : masked_array F) (b : blocks)
    : result (list F * list F) :=
  let mask := ma_mask ln_psas_cond in
  mat_covar_22_inv ←
    match inv (mat_covar_22 b) with
    | Some m => Ok m
    | None => Raise LinAlgError
    end;
  ln_psas_u ← bool_index ln_psas (invert mask);
  let mat_total_resids :=
    column_matrix (zip_with sub (ma_select_data ln_psas_cond (invert mask))
                                ln_psas_u) in
  ln_psas_m ← bool_index ln_psas mask;
  let ln_psas_cmsv :=
    zip_with add ln_psas_m
      (ravel (matmul (matmul (mat_covar_12 b) mat_covar_22_inv)
                     mat_total_resids))
    ++ ma_select_data ln_psas_cond (invert mask) in
  let ln_stds_cmsv :=
    (sqrt <$> diagonal
       (matsub (mat_covar_11 b)
          (matmul (matmul (mat_covar_12 b) mat_covar_22_inv)
                  (mat_covar_21 b))))
    ++ np_zeros (ma_count ln_psas_cond) in
  Ok (ln_psas_cmsv, ln_stds_cmsv).

(** [calc_cond_mean_spectrum_vector].  [np.linalg.inv] is the parameter
    [inv]: [None] is its [LinAlgError]. *)
Definition calc_cond_mean_spectrum_vector
    (correl : F → F → F) (inv : matrix F → option (matrix F))
    (periods ln_psas ln_stds : list F) (ln_psas_cond : masked_array F)
    : result (list F * list F) :=
  if negb (np_all ((λ d, ltb zero d) <$> np_diff periods))
  then Raise (ValueError "`periods` must be increasing"%string)
  else
    b ← partition_covar correl periods ln_stds ln_psas_cond;
    '(ln_psas_cmsv, ln_stds_cmsv) ← cond_grouped inv ln_psas ln_psas_cond b;
    let indices := argsort (periods_grouped b) in
    ln_psas_cmsv ← int_index ln_psas_cmsv indices;
    ln_stds_cmsv ← int_index ln_stds_cmsv indices;
    Ok (ln_psas_cmsv, ln_stds_cmsv).

End linalg.

(** ** The parameters of the Idriss (2014) model *)

Module Idriss2014.

(** [model.NumericParameter(name, required, min, max)] and
    [model.CategoricalParameter(name, required, options, default)], as
    [PARAMS] builds them. *)
Inductive parameter : Type :=
  | NumericParameter (name : string) (required : bool) (min max : option Z)
  | CategoricalParameter (name : string) (required : bool)
      (options : list string) (default : string).

Definition name (p : parameter) : string :=
  match p with
  | NumericParameter n _ _ _ => n
  | CategoricalParameter n _ _ _ => n
  end.

Definition PARAMS : list parameter :=
  [ NumericParameter "dist_rup" true None (Some 150%Z);
    NumericParameter "mag" true (Some 5%Z) None;
    NumericParameter "v_s30" true (Some 450%Z) (Some 1200%Z);
    CategoricalParameter "mechanism" true ["SS"; "RS"]%string "SS" ].

(** The options the docstring of [__init__] gives for [mechanism]. *)
Definition documented_mechanisms : list string := ["SS"; "NS"; "RS"]%string.

(** A keyword argument: a number or a string. *)
Inductive value : Type :=
  | Number (x : Q)
  | Text (s : string).

(** [flag_mech] of [_calc_ln_resp], lines 72 to 76. *)
Definition flag_mech (mechanism : string) : Z :=
  if decide (mechanism = "RS"%string) then 1%Z else 0%Z.

Inductive validation : Type :=
  | Valid
  | ValidationError (parameter_name : string).

(** Modelled from the spec: a numeric value is out of its declared range
    when it is below the lower bound or above the upper bound, where one is
    declared. *)
Definition out_of_range (x : Q) (lo hi : option Z) : bool :=
  match lo with
  | Some l => negb (Qle_bool (inject_Z l) x)
  | None => false
  end
  || match hi with
     | Some h => negb (Qle_bool x (inject_Z h))
     | None => false
     end.

(** Modelled from the spec: the parameter validation of [model.Model], which
    is not among the sources.  A numeric value below its lower or above its
    upper bound, a categorical value outside its options, and a missing
    required value fail with a validation error naming the parameter. *)
Definition check (p : parameter) (v : option value) : validation :=
  match p, v with
  | NumericParameter n _ lo hi, Some (Number x) =>
      if out_of_range x lo hi then ValidationError n else Valid
  | CategoricalParameter n _ options _, Some (Text s) =>
      if bool_decide (s ∈ options) then Valid else ValidationError n
  | NumericParameter n required _ _, None
  | CategoricalParameter n required _ _, None =>
      if required then ValidationError n else Valid
  | NumericParameter n _ _ _, Some (Text _)
  | CategoricalParameter n _ _ _, Some (Number _) => ValidationError n
  end.

(** Modelled from the spec: all parameters are validated, in the order of
    [PARAMS], before the model is evaluated; the first failure is reported. *)
Fixpoint validate (ps : list parameter) (kwds : string → option value)
    : validation :=
  match ps with
  | [] => Valid
  | p :: ps' =>
      match check p (kwds (name p)) with
      | Valid => validate ps' kwds
      | err => err
      end
  end.

(** A normal-slip event within all numeric bounds. *)
Definition normal_slip (mechanism : string) (k : string) : option value :=
  if decide (k = "dist_rup"%string) then Some (Number (20 # 1))
  else if decide (k = "mag"%string) then Some (Number (13 # 2))
  else if decide (k = "v_s30"%string) then Some (Number (600 # 1))
  else if decide (k = "mechanism"%string) then Some (Text mechanism)
  else None.

End Idriss2014.

(** ** The vocabulary of the specification *)

(** The free periods are the masked entries of [ln_psas_cond], the
    conditioning periods its unmasked entries (the docstring: masked values
    are not used for defining the CMSV). *)
Definition free_indices (mask : list bool) : list nat :=
  filter (λ i, mask !! i = Some true) (seq 0 (length mask)).

Definition cond_indices (mask : list bool) : list nat :=
  filter (λ i, mask !! i = Some false) (seq 0 (length mask)).

(** The inverse of the grouping: the array whose masked entries are [xs], in
    order, and whose unmasked entries are [ys]. *)
Fixpoint ungroup {A} (mask : list bool) (xs ys : list A) : list A :=
  match mask with
  | [] => []
  | true :: mask' =>
      match xs with
      | x :: xs' => x :: ungroup mask' xs' ys
      | [] => []
      end
  | false :: mask' =>
      match ys with
      | y :: ys' => y :: ungroup mask' xs ys'
      | [] => []
      end
  end.

Section vocabulary.
Context {F : Type} `{Num F}.
Implicit Types (periods ln_psas ln_stds : list F) (c : masked_array F).

(** The specification's "strictly increasing": every period is smaller than
    the next one. *)
Definition strictly_increasing periods : Prop :=
  ∀ i x y, periods !! i = Some x → periods !! (S i) = Some y → ltb x y = true.

(** [shape m r c]: the array has [r] rows of [c] entries each. *)
Definition shape (m : matrix F) (r c : nat) : Prop :=
  length (mrows m) = r ∧ mcols m = c ∧ Forall (λ row, length row = c) (mrows m).

(** A matrix times a vector, and [np.ravel] of the product with the column
    matrix of the vector. *)
Definition matvec (a : matrix F) (v : list F) : list F :=
  (λ row, dot row v) <$> mrows a.

(** The entry [(i, j)] of a 2-D array. *)
Definition mat_entry (m : matrix F) (i j : nat) : F := (mrows m !!! i) !!! j.

(** The inputs the docstring asks for: increasing periods and arrays of the
    length of [periods] (of which there is at least one). *)
Definition valid_input periods ln_psas ln_stds c : Prop :=
  strictly_increasing periods ∧ periods ≠ []
  ∧ length ln_psas = length periods ∧ length ln_stds = length periods
  ∧ length (ma_data c) = length periods ∧ length (ma_mask c) = length periods.

(** The value of [periods_grouped] and of [mat_covar]. *)
Definition grouped (v : list F) (mask : list bool) : list F :=
  select v mask ++ select v (invert mask).

Definition grouped_covar (correl : F → F → F) periods ln_stds
    (mask : list bool) : matrix F :=
  let gp := grouped periods mask in
  let mat_ln_std := diag_matrix (grouped ln_stds mask) in
  let mat_correl :=
    transpose (Matrix (length gp) ((λ pc, calc_correl correl gp pc) <$> gp)) in
  matmul (matmul mat_ln_std mat_correl) mat_ln_std.

Definition the_blocks (correl : F → F → F) periods ln_stds c : blocks :=
  let mat_covar := grouped_covar correl periods ln_stds (ma_mask c) in
  let n := count_masked c in
  Blocks (grouped periods (ma_mask c)) mat_covar n
    (slice_tt n n mat_covar) (slice_dd n n mat_covar)
    (slice_td n n mat_covar) (slice_dt n n mat_covar).

(** The two halves of lines 73 to 83 that belong to the masked entries. *)
Definition masked_mean (b : blocks) (minv : matrix F) ln_psas c : list F :=
  zip_with add (select ln_psas (ma_mask c))
    (matvec (matmul (mat_covar_12 b) minv)
       (zip_with sub (select (ma_data c) (invert (ma_mask c)))
                     (select ln_psas (invert (ma_mask c))))).

Definition masked_std (b : blocks) (minv : matrix F) : list F :=
  sqrt <$> diagonal
    (matsub (mat_covar_11 b)
       (matmul (matmul (mat_covar_12 b) minv) (mat_covar_21 b))).

(** The specification's covariance of the periods [i] and [j] of the input:
    [std[i] * std[j] * correl(period[i], period[j])]. *)
Definition covariance (correl : F → F → F) periods ln_stds (i j : nat) : F :=
  mul (mul (ln_stds !!! i) (ln_stds !!! j))
      (correl (periods !!! i) (periods !!! j)).

(** The block of the covariance matrix with the given row and column
    periods. *)
Definition cov_block (correl : F → F → F) periods ln_stds
    (rows cols : list nat) : matrix F :=
  Matrix (length cols)
         ((λ i, (λ j, covariance correl periods ln_stds i j) <$> cols) <$> rows).

End vocabulary.

(** ** Exact arithmetic: the rationals *)

Module Exact.

Definition Qc_ltb (x y : Qc) : bool :=
  match (x ?= y)%Qc with Lt => true | _ => false end.

(** The square root of a rational whose numerator and denominator are
    squares (rounded down on each of them otherwise). *)
Definition Qc_sqrt (q : Qc) : Qc :=
  Q2Qc (Z.sqrt (Qnum q) # Z.to_pos (Z.sqrt (Zpos (Qden q)))).

#[global] Instance Qc_num : Num Qc := {|
  zero := 0%Qc;
  add := Qcplus;
  sub := Qcminus;
  mul := Qcmult;
  sqrt := Qc_sqrt;
  ltb := Qc_ltb;
|}.

(** A correlation of two periods that decays with their distance:
    [1 / (1 + |p - q|)]. *)
Definition rho (p q : Qc) : Qc :=
  (/ (1 + (if Qc_ltb p q then q - p else p - q)))%Qc.

(** Gauss-Jordan elimination on the rows of [m | I]. *)
Fixpoint find_pivot (col : nat) (rows : list (list Qc))
    : option (list Qc * list (list Qc)) :=
  match rows with
  | [] => None
  | r :: rs =>
      if decide (r !!! col = 0%Qc)
      then '(p, rest) ← find_pivot col rs; Some (p, r :: rest)
      else Some (r, rs)
  end.

Fixpoint gauss_jordan (fuel col : nat) (done todo : list (list Qc))
    : option (list (list Qc)) :=
  match fuel with
  | 0 => Some done
  | S fuel' =>
      '(p, rest) ← find_pivot col todo;
      let p' := Qcmult (/ (p !!! col))%Qc <$> p in
      let elim r := zip_with (λ x y, x - (r !!! col) * y)%Qc r p' in
      gauss_jordan fuel' (S col) ((elim <$> done) ++ [p']) (elim <$> rest)
  end.

(** The inverse of a square matrix, [None] when it is singular or not
    square. *)
Definition inv (m : matrix Qc) : option (matrix Qc) :=
  let n := length (mrows m) in
  if decide (mcols m = n) then
    let identity := mrows (diag_matrix (replicate n 1%Qc)) in
    rows ← gauss_jordan n 0 [] (zip_with app (mrows m) identity);
    Some (Matrix n (drop n <$> rows))
  else None.

(** The scenario of the specification: five periods, a target at 0.5 s. *)
Definition q (n : Z) (d : positive) : Qc := Q2Qc (n # d).

Definition periods5 : list Qc := [q 1 10; q 1 5; q 1 2; q 1 1; q 2 1].
Definition ln_psas5 : list Qc :=
  [q (-1) 1; q (-6) 5; q (-9) 5; q (-23) 10; q (-3) 1].
Definition ln_stds5 : list Qc := [q 3 5; q 3 5; q 13 20; q 7 10; q 3 4].

(** The target at 0.5 s: every other entry is masked. *)
Definition target_at_half : masked_array Qc :=
  MaskedArray [q 0 1; q 0 1; q (-3) 2; q 0 1; q 0 1]
              [true; true; false; true; true].

(** The same target with other values stored at the masked entries. *)
Definition target_at_half' : masked_array Qc :=
  MaskedArray [q 7 1; q 7 1; q (-3) 2; q 7 1; q 7 1]
              [true; true; false; true; true].

(** Every period is a conditioning target: nothing is masked. *)
Definition all_targets : masked_array Qc :=
  MaskedArray [q (-1) 1; q (-1) 1; q (-3) 2; q (-2) 1; q (-3) 1]
              [false; false; false; false; false].

(** An inversion that gives up on every block but the 1×1 ones. *)
Definition inv_scalar (m : matrix Qc) : option (matrix Qc) :=
  if decide (mcols m = 1) then inv m else None.

(** An inversion that fails on every block. *)
Definition inv_fails (m : matrix Qc) : option (matrix Qc) := None.

End Exact.

(** ** The response of the Idriss (2014) model *)

(** The further operations [_calc_ln_resp] and [_calc_ln_std] use: unary
    minus, [** 2], [np.log], decimal literals and [<=]. *)
Class Elementary (F : Type) `{Num F} : Type := {
  neg : F → F;
  square : F → F;
  log : F → F;
  literal : Q → F;
  leq : F → F → bool;
}.

Module I14.

Section model.
Context {F : Type} `{Num F} `{!Elementary F}.

(** A row of a coefficient file, with the columns the model reads.  The
    files [idriss_2014-small.csv] and [idriss_2014-large.csv] are not among
    the sources: the two tables are parameters of the model. *)
Record coefficients : Type := Coefficients {
  period : F;
  alpha_1 : F;
  alpha_2 : F;
  alpha_3 : F;
  beta_1 : F;
  beta_2 : F;
  gamma : F;
  epsilon : F;
  phi : F;
}.

(** [self.params] after [__init__]. *)
Record params : Type := Params {
  dist_rup : F;
  mag : F;
  v_s30 : F;
  mechanism : string;
}.

(** [PERIODS = COEFF['small']['period']] *)
Definition PERIODS (small : list coefficients) : list F := period <$> small.

(** NumPy's arithmetic on an array and an array, and on an array and a
    scalar. *)
Definition arr_add (a b : list F) : list F := zip_with add a b.
Definition arr_scale (a : list F) (s : F) : list F := (λ x, mul x s) <$> a.
Definition arr_neg (a : list F) : list F := neg <$> a.
Definition scalar_add (s : F) (a : list F) : list F := (λ x, add s x) <$> a.
Definition scalar_scale (s : F) (a : list F) : list F := (λ x, mul s x) <$> a.
Definition arr_sub_scalar (a : list F) (s : F) : list F := (λ x, sub x s) <$> a.

(** [np.maximum], [np.minimum] and [np.clip(x, lo, hi)], which is
    [np.minimum(hi, np.maximum(x, lo))]. *)
Definition maximum (a b : F) : F := if ltb a b then b else a.
Definition minimum (a b : F) : F := if ltb b a then b else a.
Definition clip (x lo hi : F) : F := minimum (maximum x lo) hi.

(** [_calc_ln_resp], lines 63 to 87. *)
Definition _calc_ln_resp (small large : list coefficients) (p : params)
    : list F :=
  let c := if leq (mag p) (literal (27 # 4)) then small else large in
  let flag_mech := Idriss2014.flag_mech (mechanism p) in
  let f_mag :=
    arr_add (arr_add (alpha_1 <$> c) (arr_scale (alpha_2 <$> c) (mag p)))
            (arr_scale (alpha_3 <$> c)
                       (square (sub (literal (17 # 2)) (mag p)))) in
  let f_dst :=
    arr_add
      (arr_scale
         (arr_neg (arr_add (beta_1 <$> c) (arr_scale (beta_2 <$> c) (mag p))))
         (log (add (dist_rup p) (literal (10 # 1)))))
      (arr_scale (gamma <$> c) (dist_rup p)) in
  let f_ste := arr_scale (epsilon <$> c) (log (v_s30 p)) in
  let f_mec := arr_scale (phi <$> c) (literal (inject_Z flag_mech)) in
  arr_add (arr_add (arr_add f_mag f_dst) f_ste) f_mec.

(** [_calc_ln_std], lines 89 to 98. *)
Definition _calc_ln_std (small : list coefficients) (p : params) : list F :=
  arr_sub_scalar
    (scalar_add (literal (59 # 50))
       (scalar_scale (literal (7 # 200))
          (log <$> ((λ T, clip T (literal (1 # 20)) (literal (3 # 1)))
                      <$> PERIODS small))))
    (mul (literal (3 # 50)) (clip (mag p) (literal (5 # 1)) (literal (15 # 2)))).

(** The right-hand side of the model for one row of a table. *)
Definition ln_resp_row (p : params) (r : coefficients) : F :=
  add (add (add
    (add (add (alpha_1 r) (mul (alpha_2 r) (mag p)))
         (mul (alpha_3 r) (square (sub (literal (17 # 2)) (mag p)))))
    (add (mul (neg (add (beta_1 r) (mul (beta_2 r) (mag p))))
              (log (add (dist_rup p) (literal (10 # 1)))))
         (mul (gamma r) (dist_rup p))))
    (mul (epsilon r) (log (v_s30 p))))
    (mul (phi r)
         (literal (inject_Z (Idriss2014.flag_mech (mechanism p))))).

(** The same event with another fault mechanism. *)
Definition with_mechanism (p : params) (m : string) : params :=
  Params (dist_rup p) (mag p) (v_s30 p) m.

(** The same event with another magnitude. *)
Definition with_mag (p : params) (m : F) : params :=
  Params (dist_rup p) m (v_s30 p) (mechanism p).

(** The table [_calc_ln_resp] reads: the small-magnitude one up to 6.75. *)
Definition selected (small large : list coefficients) (p : params)
    : list coefficients :=
  if leq (mag p) (literal (27 # 4)) then small else large.

(** The period is at or beyond a bound of the clipping. *)
Definition at_or_below (T bound : F) : Prop := ltb T bound = true ∨ T = bound.
Definition at_or_above (T bound : F) : Prop := ltb bound T = true ∨ T = bound.

End model.

End I14.

(** The rationals again: the logarithm is replaced by a rational function,
    [2 (x - 1) / (x + 1)], since the properties below hold for every
    function in its place. *)
Module ExactElementary.

Definition Qc_leb (x y : Qc) : bool :=
  match (x ?= y)%Qc with Gt => false | _ => true end.

#[global] Instance Qc_elementary : Elementary Qc := {|
  neg := Qcopp;
  square := λ x, (x * x)%Qc;
  log := λ x, (Q2Qc (2 # 1) * (x - 1) / (x + 1))%Qc;
  literal := Q2Qc;
  leq := Qc_leb;
|}.

(** Two small tables of four periods (0.01 s, 0.03 s, 0.2 s and 5 s) and an
    event. *)
Definition row (T a1 a2 a3 b1 b2 g e f : Q) : I14.coefficients :=
  I14.Coefficients (Q2Qc T) (Q2Qc a1) (Q2Qc a2) (Q2Qc a3) (Q2Qc b1) (Q2Qc b2)
    (Q2Qc g) (Q2Qc e) (Q2Qc f).

Definition small4 : list I14.coefficients :=
  [ row (1 # 100) (7 # 1) (1 # 4) (-1 # 10) (3 # 1) (-1 # 5) (-1 # 1000)
        (-4 # 5) (1 # 10);
    row (3 # 100) (7 # 1) (1 # 4) (-1 # 9) (3 # 1) (-1 # 5) (-1 # 800)
        (-4 # 5) (1 # 9);
    row (1 # 5) (8 # 1) (1 # 5) (-1 # 8) (3 # 1) (-1 # 5) (-1 # 500)
        (-9 # 10) (1 # 8);
    row (5 # 1) (3 # 1) (1 # 2) (-1 # 4) (2 # 1) (-1 # 10) (0 # 1)
        (-1 # 1) (1 # 20) ].

Definition large4 : list I14.coefficients :=
  [ row (1 # 100) (9 # 1) (-1 # 10) (-1 # 10) (2 # 1) (-1 # 20) (-1 # 1000)
        (-4 # 5) (1 # 10);
    row (3 # 100) (9 # 1) (-1 # 10) (-1 # 9) (2 # 1) (-1 # 20) (-1 # 800)
        (-4 # 5) (1 # 9);
    row (1 # 5) (10 # 1) (-1 # 8) (-1 # 8) (2 # 1) (-1 # 20) (-1 # 500)
        (-9 # 10) (1 # 8);
    row (5 # 1) (6 # 1) (1 # 10) (-1 # 4) (3 # 2) (-1 # 40) (0 # 1)
        (-1 # 1) (1 # 20) ].

Definition event (m : Q) (mechanism : string) : I14.params :=
  I14.Params (Q2Qc (20 # 1)) (Q2Qc m) (Q2Qc (600 # 1)) mechanism.

(** The target at 0.5 s set to the unconditioned log-mean there. *)
Definition target_on_mean : masked_array Qc :=
  MaskedArray Exact.ln_psas5 [true; true; false; true; true].

(** No target at all: everything is masked. *)
Definition no_targets : masked_array Qc :=
  MaskedArray (replicate 5 (Q2Qc 0))
              [true; true; true; true; true].

End ExactElementary.

(** * Theorems *)

Lemma rbind_ok {A B} (a : A) (k : A → result B) : Ok a ≫= k = k a.
Proof. done. Qed.

(** ** Facts on boolean indexing *)

Lemma length_invert m : length (invert m) = length m.
Proof. apply length_fmap. Qed.

Ltac filter_bool :=
  repeat first [ rewrite filter_cons_True in * by done
               | rewrite filter_cons_False in * by done ].

Lemma filter_fmap_pre {A B} (f : B → A) (P : A → Prop)
    `{!∀ x, Decision (P x)} (l : list B) :
  filter P (f <$> l) = f <$> filter (λ x, P (f x)) l.
Proof.
  induction l as [|x l IH]; [done|].
  rewrite fmap_cons, !filter_cons, IH. by case_decide.
Qed.

Section select_facts.
Context {A : Type}.
Implicit Types (a : list A) (m : list bool).

Lemma select_fmap {B} (f : A → B) a m : select (f <$> a) m = f <$> select a m.
Proof.
  revert m. induction a as [|x a IH]; intros [|[] m]; simpl; rewrite ?IH; done.
Qed.

Lemma length_select a m :
  length a = length m →
  length (select a m) = length (filter (λ b, b = true) m).
Proof.
  revert m. induction a as [|x a IH]; intros [|[] m] Hl; simplify_eq/=;
    filter_bool; simpl; rewrite ?IH; done.
Qed.

Lemma filter_invert_true m :
  filter (λ b, b = true) (invert m) = negb <$> filter (λ b, b = false) m.
Proof.
  induction m as [|[] m IH]; simpl; filter_bool; rewrite ?fmap_cons, ?IH; done.
Qed.

Lemma length_select_invert a m :
  length a = length m →
  length (select a (invert m)) = length (filter (λ b, b = false) m).
Proof.
  intros Hl. rewrite length_select by (by rewrite length_invert).
  by rewrite filter_invert_true, length_fmap.
Qed.

Lemma select_partition a m :
  length a = length m → select a m ++ select a (invert m) ≡ₚ a.
Proof.
  revert m. induction a as [|x a IH]; intros [|[] m] Hl; simplify_eq/=; try done.
  - by rewrite IH.
  - rewrite <-Permutation_middle. by rewrite IH.
Qed.

Lemma select_ungroup m (xs ys : list A) :
  length xs = length (filter (λ b, b = true) m) →
  length ys = length (filter (λ b, b = false) m) →
  select (ungroup m xs ys) m = xs ∧ select (ungroup m xs ys) (invert m) = ys
  ∧ length (ungroup m xs ys) = length m.
Proof.
  revert xs ys. induction m as [|[] m IH]; intros xs ys Hx Hy; simpl in *;
    filter_bool.
  - by destruct xs, ys.
  - destruct xs as [|x xs]; simplify_eq/=.
    destruct (IH xs ys) as (-> & -> & ->); done.
  - destruct ys as [|y ys]; simplify_eq/=.
    destruct (IH xs ys) as (-> & -> & ->); done.
Qed.

(** An unmasked entry of the ungrouped array is the entry of the array the
    unmasked part was selected from. *)
Lemma ungroup_lookup_unmasked m (xs : list A) a i :
  length a = length m →
  length xs = length (filter (λ b, b = true) m) →
  m !! i = Some false →
  ungroup m xs (select a (invert m)) !! i = a !! i.
Proof.
  revert xs a i. induction m as [|[] m IH]; intros xs [|y a] i Hl Hx Hi;
    simplify_eq/=; filter_bool.
  - destruct xs as [|x xs]; simplify_eq/=.
    destruct i as [|i]; simplify_eq/=. by apply IH.
  - destruct i as [|i]; simplify_eq/=; [done|]. by apply IH.
Qed.

(** Boolean indexing, index by index: [a[m]] lists [a] at the indices where
    [m] holds. *)
Lemma select_fmap_seq (f : nat → A) m :
  select (f <$> seq 0 (length m)) m
  = f <$> filter (λ i, m !! i = Some true) (seq 0 (length m)).
Proof.
  revert f. induction m as [|b m IH]; intros f; [done|].
  simpl length. rewrite <-cons_seq, <-fmap_S_seq, fmap_cons, <-list_fmap_compose.
  simpl select. rewrite IH. rewrite filter_cons.
  rewrite (filter_fmap_pre S (λ i, (b :: m) !! i = Some true)).
  destruct b; case_decide; simplify_eq/=; by rewrite <-list_fmap_compose.
Qed.

Lemma lookup_invert m i b : invert m !! i = Some b ↔ m !! i = Some (negb b).
Proof.
  unfold invert. rewrite list_lookup_fmap. destruct (m !! i) as [[]|], b; naive_solver.
Qed.

Lemma select_invert_fmap_seq (f : nat → A) m :
  select (f <$> seq 0 (length m)) (invert m) = f <$> cond_indices m.
Proof.
  rewrite <-(length_invert m) at 1. rewrite select_fmap_seq, length_invert.
  unfold cond_indices. f_equal. apply list_filter_iff. intros i.
  apply (lookup_invert m i true).
Qed.

Lemma select_invert_agree a a' m :
  length a = length m → length a' = length m →
  (∀ i, m !! i = Some false → a !! i = a' !! i) →
  select a (invert m) = select a' (invert m).
Proof.
  revert a a'. induction m as [|b m IH]; intros [|x a] [|x' a'] Hl Hl' Hi;
    simplify_eq/=; [done|].
  assert (select a (invert m) = select a' (invert m)) as Htl.
  { apply IH; [done|done|]. intros i. apply (Hi (S i)). }
  destruct b; simpl; [done|].
  specialize (Hi 0 eq_refl). simplify_eq/=. by rewrite Htl.
Qed.

(** Without masked entries the grouping changes nothing. *)
Lemma ungroup_none_masked m (xs ys : list A) :
  length (filter (λ b, b = true) m) = 0 → length ys = length m →
  ungroup m xs ys = ys.
Proof.
  revert ys. induction m as [|[] m IH]; intros [|y ys] Hn Hl;
    simplify_eq/=; filter_bool; simplify_eq/=; [done|].
  by rewrite IH.
Qed.

Lemma select_none_masked a m :
  length (filter (λ b, b = true) m) = 0 → length a = length m →
  select a (invert m) = a.
Proof.
  revert a. induction m as [|[] m IH]; intros [|x a] Hn Hl;
    simplify_eq/=; filter_bool; simplify_eq/=; [done|].
  by rewrite IH.
Qed.

End select_facts.

Section select_total.
Context {A : Type} `{!Inhabited A}.
Implicit Types (a : list A) (m : list bool).

Lemma fmap_lookup_total_seq a : (λ i, a !!! i) <$> seq 0 (length a) = a.
Proof.
  apply list_eq; intros i. rewrite list_lookup_fmap.
  destruct (decide (i < length a)).
  - rewrite lookup_seq_lt by done. simpl.
    symmetry. by apply list_lookup_lookup_total_lt.
  - rewrite lookup_seq_ge by lia. simpl.
    symmetry. apply lookup_ge_None_2. lia.
Qed.

Lemma select_free_indices a m :
  length a = length m → select a m = (λ i, a !!! i) <$> free_indices m.
Proof.
  intros Hl. rewrite <-(fmap_lookup_total_seq a) at 1. rewrite Hl.
  apply select_fmap_seq.
Qed.

Lemma select_cond_indices a m :
  length a = length m → select a (invert m) = (λ i, a !!! i) <$> cond_indices m.
Proof.
  intros Hl. rewrite <-(fmap_lookup_total_seq a) at 1. rewrite Hl.
  apply select_invert_fmap_seq.
Qed.

(** The entry of the ungrouped array at the [j]-th free index is the [j]-th
    entry of the masked part, and likewise for the unmasked part. *)
Lemma ungroup_lookup_free m (xs ys : list A) j i :
  length xs = length (filter (λ b, b = true) m) →
  length ys = length (filter (λ b, b = false) m) →
  free_indices m !! j = Some i →
  ungroup m xs ys !! i = xs !! j.
Proof.
  intros Hx Hy Hj. destruct (select_ungroup m xs ys Hx Hy) as (Hs & _ & Hl).
  rewrite select_free_indices in Hs by done.
  rewrite <-Hs at 2. rewrite list_lookup_fmap, Hj. simpl.
  apply list_lookup_lookup_total_lt. rewrite Hl.
  apply list_elem_of_lookup_2, list_elem_of_filter in Hj as [_ Hj].
  apply elem_of_seq in Hj. lia.
Qed.

Lemma ungroup_lookup_cond m (xs ys : list A) j i :
  length xs = length (filter (λ b, b = true) m) →
  length ys = length (filter (λ b, b = false) m) →
  cond_indices m !! j = Some i →
  ungroup m xs ys !! i = ys !! j.
Proof.
  intros Hx Hy Hj. destruct (select_ungroup m xs ys Hx Hy) as (_ & Hs & Hl).
  rewrite select_cond_indices in Hs by done.
  rewrite <-Hs at 2. rewrite list_lookup_fmap, Hj. simpl.
  apply list_lookup_lookup_total_lt. rewrite Hl.
  apply list_elem_of_lookup_2, list_elem_of_filter in Hj as [_ Hj].
  apply elem_of_seq in Hj. lia.
Qed.

End select_total.

Lemma free_indices_select m : free_indices m = select (seq 0 (length m)) m.
Proof.
  rewrite <-(list_fmap_id (seq 0 (length m))), select_fmap_seq.
  by rewrite list_fmap_id.
Qed.

Lemma cond_indices_select m :
  cond_indices m = select (seq 0 (length m)) (invert m).
Proof.
  rewrite <-(list_fmap_id (seq 0 (length m))), select_invert_fmap_seq.
  by rewrite list_fmap_id.
Qed.

Lemma length_free_indices m :
  length (free_indices m) = length (filter (λ b, b = true) m).
Proof.
  rewrite free_indices_select. apply length_select. by rewrite length_seq.
Qed.

Lemma length_cond_indices m :
  length (cond_indices m) = length (filter (λ b, b = false) m).
Proof.
  rewrite cond_indices_select. apply length_select_invert. by rewrite length_seq.
Qed.

(** The grouping is a permutation of the indices. *)
Lemma grouping_permutation m :
  free_indices m ++ cond_indices m ≡ₚ seq 0 (length m).
Proof.
  rewrite free_indices_select, cond_indices_select.
  apply select_partition. by rewrite length_seq.
Qed.

Lemma length_grouping m :
  length (free_indices m ++ cond_indices m) = length m.
Proof. by rewrite (grouping_permutation m), length_seq. Qed.

(** ** Restoring the input order *)

Lemma Sorted_fmap_elem_of {A B} (R1 : relation A) (R2 : relation B)
    (f : A → B) (l : list A) :
  (∀ x y, x ∈ l → y ∈ l → R1 x y → R2 (f x) (f y)) →
  Sorted R1 l → Sorted R2 (f <$> l).
Proof.
  intros Hf Hs. induction Hs as [|x l Hs IH Hhd]; [constructor|].
  rewrite fmap_cons. constructor.
  - apply IH. intros y z Hy Hz. apply Hf; by right.
  - destruct Hhd as [|y l Hxy]; constructor.
    apply Hf; [left|right; left|done].
Qed.

Lemma Sorted_le_seq s n : Sorted le (seq s n).
Proof.
  revert s. induction n as [|n IH]; intros s; simpl; constructor; [done|].
  destruct n; simpl; constructor. lia.
Qed.

Section restore.
Context {F : Type} `{Num F} `{!OrderLaws F}.
Implicit Types (periods : list F) (m : list bool).

(** The check of line 49 accepts exactly the strictly increasing arrays. *)
Lemma increasing_check periods :
  np_all ((λ d, ltb zero d) <$> np_diff periods) = true
  ↔ strictly_increasing periods.
Proof.
  unfold strictly_increasing, np_all, np_diff.
  induction periods as [|x periods IH].
  { split; [intros _ i ???; by rewrite lookup_nil|done]. }
  destruct periods as [|y periods].
  { split; [|done]. intros _ i x' y' Hi Hj. destruct i; simplify_eq/=. }
  etrans; [apply (andb_true_iff (ltb zero (sub y x)))|].
  rewrite IH, ltb_sub. split.
  - intros [Hxy Hi] i x' y' Hx Hy. destruct i; simplify_eq/=; [done|].
    by eapply Hi.
  - intros Hi. split; [by apply (Hi 0)|]. intros i. apply (Hi (S i)).
Qed.

Lemma strictly_increasing_lt periods i j x y :
  strictly_increasing periods → i < j →
  periods !! i = Some x → periods !! j = Some y → ltb x y = true.
Proof.
  intros Hinc Hij Hi. revert y. induction Hij as [|j Hij IH]; intros y Hj.
  - by eapply Hinc.
  - destruct (lookup_lt_is_Some_2 periods j) as [z Hz].
    { apply lookup_lt_Some in Hj. lia. }
    eapply ltb_trans; [by apply IH|by eapply Hinc].
Qed.

#[local] Instance key_le_total (keys : list F) : Total (key_le keys).
Proof.
  intros i j. unfold key_le.
  destruct (ltb (keys !!! j) (keys !!! i)) eqn:Hji; [|by left].
  right. by apply ltb_asym.
Qed.

Lemma argsort_permutation (keys : list F) :
  argsort keys ≡ₚ seq 0 (length keys).
Proof. apply merge_sort_Permutation. Qed.

Lemma argsort_lt (keys : list F) i : i ∈ argsort keys → i < length keys.
Proof. rewrite argsort_permutation, elem_of_seq. lia. Qed.

Lemma grouping_elem_lt m i :
  i ∈ free_indices m ++ cond_indices m → i < length m.
Proof. rewrite grouping_permutation, elem_of_seq. lia. Qed.

(** Sorting the grouped periods undoes the grouping: read through the
    argsort, the grouped indices are [0, 1, ..., N-1] again. *)
Lemma argsort_grouping periods m :
  strictly_increasing periods → length periods = length m →
  let G := free_indices m ++ cond_indices m in
  (λ i, G !!! i) <$> argsort ((λ i, periods !!! i) <$> G)
  = seq 0 (length m).
Proof.
  intros Hinc Hl G.
  assert (HG : length G = length m) by apply length_grouping.
  apply (Sorted_unique le).
  - apply Sorted_fmap_elem_of with (R1 := key_le ((λ i, periods !!! i) <$> G));
      [|apply (Sorted_merge_sort _)].
    intros i j Hi%argsort_lt Hj%argsort_lt Hij.
    rewrite length_fmap in Hi, Hj. unfold key_le in Hij.
    rewrite (list_lookup_total_fmap (λ i, periods !!! i) G i),
      (list_lookup_total_fmap (λ i, periods !!! i) G j) in Hij by done.
    apply Nat.nlt_ge. intros Hlt.
    assert (G !!! i < length periods) as Hgi.
    { rewrite Hl. by apply grouping_elem_lt, list_elem_of_lookup_total_2. }
    rewrite (strictly_increasing_lt periods (G !!! j) (G !!! i)
               (periods !!! (G !!! j)) (periods !!! (G !!! i))) in Hij; try done.
    + apply list_lookup_lookup_total_lt. lia.
    + by apply list_lookup_lookup_total_lt.
  - apply Sorted_le_seq.
  - rewrite argsort_permutation, length_fmap, fmap_lookup_total_seq.
    apply grouping_permutation.
Qed.

(** Hence indexing a grouped array by the argsort of the grouped periods
    returns it in the input order. *)
Lemma int_index_argsort {A} `{!Inhabited A} periods m (v : list A) :
  strictly_increasing periods → length periods = length m →
  length v = length m →
  int_index (select v m ++ select v (invert m))
            (argsort (select periods m ++ select periods (invert m)))
  = Ok v.
Proof.
  intros Hinc Hl Hv. unfold int_index.
  rewrite (select_free_indices periods), (select_cond_indices periods) by done.
  rewrite (select_free_indices v), (select_cond_indices v) by done.
  rewrite <-!fmap_app.
  pose proof (argsort_grouping periods m Hinc Hl) as HG. simpl in HG.
  set (G := free_indices m ++ cond_indices m) in *.
  set (idx := argsort _) in *.
  assert (mapM (λ i, ((λ i, v !!! i) <$> G) !! i) idx = Some v) as ->; [|done].
  apply mapM_Some.
  assert ((λ i, v !!! (G !!! i)) <$> idx = v) as Hv'.
  { etrans; [|apply (fmap_lookup_total_seq v)].
    by rewrite Hv, <-HG, <-list_fmap_compose. }
  set (gv := (λ i, v !!! i) <$> G). rewrite <-Hv'.
  apply Forall2_fmap_r, Forall_Forall2_diag.
  apply Forall_forall. intros i Hi%argsort_lt.
  rewrite length_fmap in Hi. unfold gv. rewrite list_lookup_fmap.
  by rewrite (list_lookup_lookup_total_lt G i).
Qed.

End restore.

(** ** Shapes *)

Section shapes.
Context {F : Type} `{Num F}.
Implicit Types (a b m : matrix F) (v : list F).

Lemma length_np_zeros n : length (np_zeros (F:=F) n) = n.
Proof. apply length_replicate. Qed.

Lemma shape_matmul a b r : length (mrows a) = r → shape (matmul a b) r (mcols b).
Proof.
  intros Hr. repeat split; simpl.
  - by rewrite length_fmap.
  - apply Forall_fmap, Forall_true. intros row. simpl.
    by rewrite length_fmap, length_seq.
Qed.

Lemma shape_diag_matrix v : shape (diag_matrix v) (length v) (length v).
Proof.
  repeat split; simpl; [by rewrite length_imap|].
  apply Forall_forall. intros row [i [x [-> _]]]%elem_of_lookup_imap.
  by rewrite length_insert, length_np_zeros.
Qed.

Lemma shape_slice_tt m r c n k :
  shape m r c → shape (slice_tt n k m) (min n r) (min k c).
Proof.
  intros (Hr & Hc & Hrows). repeat split; simpl.
  - by rewrite length_fmap, length_take, Hr.
  - by rewrite Hc.
  - apply Forall_fmap, Forall_take. eapply Forall_impl; [done|].
    intros row Hrow. simpl. by rewrite length_take, Hrow.
Qed.

Lemma shape_slice_td m r c n k :
  shape m r c → shape (slice_td n k m) (min n r) (c - k).
Proof.
  intros (Hr & Hc & Hrows). repeat split; simpl.
  - by rewrite length_fmap, length_take, Hr.
  - by rewrite Hc.
  - apply Forall_fmap, Forall_take. eapply Forall_impl; [done|].
    intros row Hrow. simpl. by rewrite length_drop, Hrow.
Qed.

Lemma shape_slice_dt m r c n k :
  shape m r c → shape (slice_dt n k m) (r - n) (min k c).
Proof.
  intros (Hr & Hc & Hrows). repeat split; simpl.
  - by rewrite length_fmap, length_drop, Hr.
  - by rewrite Hc.
  - apply Forall_fmap, Forall_drop. eapply Forall_impl; [done|].
    intros row Hrow. simpl. by rewrite length_take, Hrow.
Qed.

Lemma shape_slice_dd m r c n k :
  shape m r c → shape (slice_dd n k m) (r - n) (c - k).
Proof.
  intros (Hr & Hc & Hrows). repeat split; simpl.
  - by rewrite length_fmap, length_drop, Hr.
  - by rewrite Hc.
  - apply Forall_fmap, Forall_drop. eapply Forall_impl; [done|].
    intros row Hrow. simpl. by rewrite length_drop, Hrow.
Qed.

Lemma shape_matsub a b r c : shape a r c → shape b r c → shape (matsub a b) r c.
Proof.
  intros (Hr & Hc & Hrows) (Hr' & Hc' & Hrows'). repeat split; simpl; [|done|].
  - rewrite length_zip_with. lia.
  - apply Forall_forall. intros row Hrow.
    apply list_elem_of_lookup in Hrow as [i Hi].
    apply lookup_zip_with_Some in Hi as (x & y & -> & Hx & Hy).
    rewrite length_zip_with.
    rewrite Forall_forall in Hrows, Hrows'.
    rewrite (Hrows x), (Hrows' y) by (by eapply list_elem_of_lookup_2). lia.
Qed.

(** The diagonal of a square array, entry by entry. *)
Lemma omap_imap_lookup (rows : list (list F)) (g : nat → nat) :
  (∀ i row, rows !! i = Some row → g i < length row) →
  omap id (imap (λ i row, row !! g i) rows) = imap (λ i row, row !!! g i) rows.
Proof.
  revert g. induction rows as [|row rows IH]; intros g Hg; [done|].
  simpl. rewrite (list_lookup_lookup_total_lt row (g 0)) by (by apply (Hg 0)).
  simpl. f_equal. apply (IH (g ∘ S)). intros i row' Hi. by apply (Hg (S i)).
Qed.

Lemma diagonal_square m n :
  shape m n n →
  diagonal m = imap (λ i row, row !!! i) (mrows m).
Proof.
  intros (Hr & _ & Hrows). unfold diagonal.
  apply (omap_imap_lookup _ id). intros i row Hi.
  rewrite Forall_forall in Hrows.
  rewrite (Hrows row) by (by eapply list_elem_of_lookup_2).
  apply lookup_lt_Some in Hi. simpl. lia.
Qed.

Lemma length_diagonal_square m n : shape m n n → length (diagonal m) = n.
Proof.
  intros Hm. rewrite (diagonal_square m n Hm), length_imap. apply Hm.
Qed.

Lemma column_column_matrix v : column 0 (column_matrix v) = v.
Proof.
  unfold column, column_matrix, transpose. simpl.
  rewrite <-list_fmap_compose. etrans; [|apply (fmap_lookup_total_seq v)].
  apply list_fmap_ext. intros i j Hi. done.
Qed.

Lemma ravel_matmul_column a v :
  ravel (matmul a (column_matrix v)) = matvec a v.
Proof.
  unfold ravel, matvec, matmul. simpl.
  induction (mrows a) as [|row rows IH]; [done|].
  rewrite !fmap_cons, concat_cons, IH. simpl.
  by rewrite column_column_matrix.
Qed.

End shapes.

(** ** What the solver computes *)

Section solver.
Context {F : Type} `{Num F}.
Variable correl : F → F → F.
Implicit Types (periods ln_psas ln_stds : list F) (c : masked_array F).

Lemma length_grouped (v : list F) mask :
  length v = length mask → length (grouped v mask) = length mask.
Proof.
  intros Hl. unfold grouped. by rewrite (select_partition v mask Hl).
Qed.

Lemma vstack_ok (rows : list (list F)) k :
  rows ≠ [] → Forall (λ r, length r = k) rows → vstack rows = Ok (Matrix k rows).
Proof.
  intros Hne Hrows. destruct rows as [|r rows]; [done|]. unfold vstack.
  assert (length r = k) as Hr by (by inversion Hrows).
  rewrite (proj2 (forallb_forall _ _)), Hr; [done|].
  intros r' Hr'. apply bool_decide_eq_true. rewrite Hr.
  rewrite Forall_forall in Hrows. apply Hrows. by apply list_elem_of_In.
Qed.

Lemma partition_covar_ok periods ln_stds c :
  periods ≠ [] →
  length periods = length (ma_mask c) → length ln_stds = length (ma_mask c) →
  partition_covar correl periods ln_stds c
  = Ok (the_blocks correl periods ln_stds c).
Proof.
  intros Hne Hp Hs. unfold partition_covar, bool_index.
  rewrite !length_invert, !decide_True by done. simpl.
  rewrite (vstack_ok _ (length (grouped periods (ma_mask c)))); [done| |].
  - intros Hnil%fmap_nil_inv. apply (f_equal length) in Hnil.
    unfold grouped in Hnil. rewrite (select_partition _ _ Hp) in Hnil.
    by destruct periods.
  - apply Forall_fmap, Forall_true. intros pc. simpl.
    unfold calc_correl. by rewrite length_fmap.
Qed.

Lemma shape_grouped_covar periods ln_stds mask :
  length ln_stds = length mask →
  shape (grouped_covar correl periods ln_stds mask) (length mask) (length mask).
Proof.
  intros Hs. unfold grouped_covar.
  pose proof (shape_diag_matrix (grouped ln_stds mask)) as (Hr & Hc & _).
  rewrite length_grouped in Hr, Hc by done.
  rewrite <-Hc at 2. apply shape_matmul. simpl. by rewrite length_fmap.
Qed.

Lemma count_masked_le c : count_masked c ≤ length (ma_mask c).
Proof. apply length_filter. Qed.

Lemma count_masked_ma_count c : count_masked c + ma_count c = length (ma_mask c).
Proof.
  unfold count_masked, ma_count.
  induction (ma_mask c) as [|[] m IH]; simpl; filter_bool; simpl; lia.
Qed.

Lemma shape_the_blocks periods ln_stds c :
  length ln_stds = length (ma_mask c) →
  let b := the_blocks correl periods ln_stds c in
  shape (mat_covar_11 b) (count_masked c) (count_masked c)
  ∧ shape (mat_covar_12 b) (count_masked c) (ma_count c)
  ∧ shape (mat_covar_21 b) (ma_count c) (count_masked c)
  ∧ shape (mat_covar_22 b) (ma_count c) (ma_count c).
Proof.
  intros Hs b.
  pose proof (shape_grouped_covar periods ln_stds (ma_mask c) Hs) as Hm.
  pose proof (count_masked_ma_count c) as Hn.
  set (n := count_masked c) in *. set (N := length (ma_mask c)) in *.
  replace (ma_count c) with (N - n) by lia.
  replace n with (min n N) at 1 2 3 6 by lia.
  unfold b, the_blocks. cbn [mat_covar_11 mat_covar_12 mat_covar_21 mat_covar_22].
  fold n. split_and!.
  - by apply shape_slice_tt.
  - by apply shape_slice_td.
  - by apply shape_slice_dt.
  - by apply shape_slice_dd.
Qed.

Lemma length_masked_mean periods ln_psas ln_stds c minv :
  length ln_psas = length (ma_mask c) → length ln_stds = length (ma_mask c) →
  length (masked_mean (the_blocks correl periods ln_stds c) minv ln_psas c)
  = count_masked c.
Proof.
  intros Hp Hs. unfold masked_mean, matvec.
  destruct (shape_the_blocks periods ln_stds c Hs) as (_ & (H12 & _) & _).
  rewrite length_zip_with, length_fmap, length_select by done.
  destruct (shape_matmul (mat_covar_12 (the_blocks correl periods ln_stds c)) minv _ H12)
    as (-> & _).
  unfold count_masked. lia.
Qed.

Lemma shape_schur periods ln_stds c minv :
  length ln_stds = length (ma_mask c) →
  let b := the_blocks correl periods ln_stds c in
  shape (matsub (mat_covar_11 b)
           (matmul (matmul (mat_covar_12 b) minv) (mat_covar_21 b)))
        (count_masked c) (count_masked c).
Proof.
  intros Hs b.
  destruct (shape_the_blocks periods ln_stds c Hs)
    as (H11 & (H12 & _) & (_ & H21 & _) & _).
  apply shape_matsub; [done|].
  rewrite <-H21 at 2. apply shape_matmul. unfold b.
  by destruct (shape_matmul (mat_covar_12 (the_blocks correl periods ln_stds c)) minv _ H12)
    as (-> & _).
Qed.

Lemma length_masked_std periods ln_stds c minv :
  length ln_stds = length (ma_mask c) →
  length (masked_std (the_blocks correl periods ln_stds c) minv) = count_masked c.
Proof.
  intros Hs. unfold masked_std. rewrite length_fmap.
  by apply length_diagonal_square, shape_schur.
Qed.

Context `{!OrderLaws F}.
Variable inv : matrix F → option (matrix F).

Lemma cond_grouped_ok ln_psas c (b : blocks) minv :
  length ln_psas = length (ma_mask c) →
  inv (mat_covar_22 b) = Some minv →
  cond_grouped inv ln_psas c b
  = Ok (masked_mean b minv ln_psas c ++ select (ma_data c) (invert (ma_mask c)),
        masked_std b minv ++ np_zeros (ma_count c)).
Proof.
  intros Hp Hinv. unfold cond_grouped, bool_index.
  rewrite Hinv, !length_invert, !decide_True by done. simpl.
  by rewrite ravel_matmul_column.
Qed.

Lemma check_valid periods ln_psas ln_stds c :
  valid_input periods ln_psas ln_stds c →
  negb (np_all ((λ d, ltb zero d) <$> np_diff periods)) = false.
Proof.
  intros (Hinc & _). apply negb_false_iff. by apply increasing_check.
Qed.

(** The result on a valid input whose conditioning block [inv] inverts: the
    masked entries carry [masked_mean] and [masked_std], the unmasked entries
    the targets and zero, all in the input order. *)
Lemma calc_valid periods ln_psas ln_stds c minv :
  valid_input periods ln_psas ln_stds c →
  let b := the_blocks correl periods ln_stds c in
  inv (mat_covar_22 b) = Some minv →
  calc_cond_mean_spectrum_vector correl inv periods ln_psas ln_stds c
  = Ok (ungroup (ma_mask c) (masked_mean b minv ln_psas c)
          (select (ma_data c) (invert (ma_mask c))),
        ungroup (ma_mask c) (masked_std b minv) (np_zeros (ma_count c))).
Proof.
  intros Hv b Hinv. unfold calc_cond_mean_spectrum_vector.
  rewrite (check_valid _ _ _ _ Hv).
  destruct Hv as (Hinc & Hne & Hp & Hs & Hd & Hm).
  rewrite partition_covar_ok by congruence. fold b. rewrite rbind_ok.
  rewrite (cond_grouped_ok ln_psas c b minv) by congruence.
  rewrite rbind_ok.
  assert (length (masked_mean b minv ln_psas c)
          = length (filter (λ x, x = true) (ma_mask c))) as Hx.
  { apply length_masked_mean; congruence. }
  assert (length (masked_std b minv)
          = length (filter (λ x, x = true) (ma_mask c))) as Hx'.
  { apply length_masked_std; congruence. }
  assert (length (select (ma_data c) (invert (ma_mask c)))
          = length (filter (λ x, x = false) (ma_mask c))) as Hy.
  { apply length_select_invert; congruence. }
  assert (length (np_zeros (F:=F) (ma_count c))
          = length (filter (λ x, x = false) (ma_mask c))) as Hy'.
  { apply length_np_zeros. }
  destruct (select_ungroup _ _ _ Hx Hy) as (Hu1 & Hu2 & Hu3).
  destruct (select_ungroup _ _ _ Hx' Hy') as (Hu1' & Hu2' & Hu3').
  change (periods_grouped b) with (grouped periods (ma_mask c)).
  set (psas := ungroup _ (masked_mean _ _ _ _) _) in *.
  set (stds := ungroup _ (masked_std _ _) _) in *.
  assert (masked_mean b minv ln_psas c ++ select (ma_data c) (invert (ma_mask c))
          = select psas (ma_mask c) ++ select psas (invert (ma_mask c))) as ->.
  { by rewrite Hu1, Hu2. }
  assert (masked_std b minv ++ np_zeros (ma_count c)
          = select stds (ma_mask c) ++ select stds (invert (ma_mask c))) as ->.
  { by rewrite Hu1', Hu2'. }
  unfold grouped.
  rewrite (int_index_argsort periods (ma_mask c) psas Hinc (eq_sym Hm) Hu3).
  by rewrite (int_index_argsort periods (ma_mask c) stds Hinc (eq_sym Hm) Hu3').
Qed.

(** When the inversion fails the solver raises its [LinAlgError]. *)
Lemma calc_singular periods ln_psas ln_stds c :
  valid_input periods ln_psas ln_stds c →
  inv (mat_covar_22 (the_blocks correl periods ln_stds c)) = None →
  calc_cond_mean_spectrum_vector correl inv periods ln_psas ln_stds c
  = Raise LinAlgError.
Proof.
  intros Hv Hinv. unfold calc_cond_mean_spectrum_vector.
  rewrite (check_valid _ _ _ _ Hv).
  destruct Hv as (Hinc & Hne & Hp & Hs & Hd & Hm).
  rewrite partition_covar_ok by congruence. simpl.
  unfold cond_grouped. by rewrite Hinv.
Qed.

End solver.

(** ** The covariance blocks, entry by entry *)

Section covariance.
Context {F : Type} `{Num F} `{!SemiringLaws F}.
Variable correl : F → F → F.
Implicit Types (periods ln_stds v : list F) (a b : matrix F).

Lemma dot_zeros_l n v : dot (np_zeros n) v = zero.
Proof.
  revert v. induction n as [|n IH]; intros [|y v]; try done.
  unfold dot in *. simpl. by rewrite IH, mul_zero_l, add_zero_l.
Qed.

Lemma dot_zeros_r n v : dot v (np_zeros n) = zero.
Proof.
  revert v. induction n as [|n IH]; intros [|y v]; try done.
  unfold dot in *. simpl. by rewrite IH, mul_zero_r, add_zero_l.
Qed.

Lemma dot_insert_l n i x v :
  i < n → length v = n → dot (<[i:=x]> (np_zeros n)) v = mul x (v !!! i).
Proof.
  revert i v. induction n as [|n IH]; intros i [|y v] Hi Hv; simplify_eq/=; try lia.
  destruct i as [|i].
  - change (add (mul x y) (dot (np_zeros (length v)) v) = mul x y).
    by rewrite dot_zeros_l, add_zero_r.
  - change (add (mul zero y) (dot (<[i:=x]> (np_zeros (length v))) v)
            = mul x (v !!! i)).
    rewrite IH by lia. by rewrite mul_zero_l, add_zero_l.
Qed.

Lemma dot_insert_r n i x v :
  i < n → length v = n → dot v (<[i:=x]> (np_zeros n)) = mul (v !!! i) x.
Proof.
  revert i v. induction n as [|n IH]; intros i [|y v] Hi Hv; simplify_eq/=; try lia.
  destruct i as [|i].
  - change (add (mul y x) (dot v (np_zeros (length v))) = mul y x).
    by rewrite dot_zeros_r, add_zero_r.
  - change (add (mul y zero) (dot v (<[i:=x]> (np_zeros (length v))))
            = mul (v !!! i) x).
    rewrite IH by lia. by rewrite mul_zero_r, add_zero_l.
Qed.

Lemma column_diag_matrix v j :
  j < length v →
  column j (diag_matrix v) = <[j:=v !!! j]> (np_zeros (length v)).
Proof.
  intros Hj. unfold column, diag_matrix. simpl.
  apply list_eq. intros k. rewrite list_lookup_fmap, list_lookup_imap.
  destruct (v !! k) as [x|] eqn:Hk; simpl.
  - pose proof (lookup_lt_Some _ _ _ Hk) as Hlt.
    destruct (decide (k = j)) as [->|Hne].
    + rewrite list_lookup_total_insert_eq by (by rewrite length_np_zeros).
      rewrite list_lookup_insert_eq by (by rewrite length_np_zeros).
      by rewrite (list_lookup_total_correct _ _ _ Hk).
    + rewrite list_lookup_total_insert_ne by done.
      rewrite list_lookup_insert_ne by done.
      unfold np_zeros. rewrite lookup_replicate_2 by done.
      by rewrite lookup_total_replicate_2.
  - apply lookup_ge_None in Hk. symmetry. apply lookup_ge_None.
    by rewrite length_insert, length_np_zeros.
Qed.

Lemma fmap_seq_lookup_total {B} (f : F → B) v :
  (λ j, f (v !!! j)) <$> seq 0 (length v) = f <$> v.
Proof.
  transitivity (f <$> ((λ j, v !!! j) <$> seq 0 (length v))).
  - by rewrite <-list_fmap_compose.
  - by rewrite fmap_lookup_total_seq.
Qed.

Lemma zip_with_seq_lookup_total {B} (f : F → F → B) v w :
  length v = length w →
  (λ j, f (v !!! j) (w !!! j)) <$> seq 0 (length v) = zip_with f v w.
Proof.
  revert w. induction v as [|x v IH]; intros [|y w] Hl; simplify_eq/=; [done|].
  f_equal. rewrite <-fmap_S_seq, <-list_fmap_compose. by apply IH.
Qed.

(** Multiplying by a diagonal matrix on the right scales the columns, on
    the left the rows. *)
Lemma matmul_diag_r a v r :
  shape a r (length v) →
  matmul a (diag_matrix v)
  = Matrix (length v) ((λ row, zip_with mul row v) <$> mrows a).
Proof.
  intros (_ & _ & Hrows). unfold matmul. f_equal.
  apply Forall_fmap_ext. eapply Forall_impl; [done|]. intros row Hrow. simpl.
  rewrite <-zip_with_seq_lookup_total, Hrow by done.
  apply list_fmap_ext. intros i j Hj%lookup_seq. destruct Hj as [-> Hj].
  rewrite column_diag_matrix by done. by apply dot_insert_r.
Qed.

Lemma matmul_diag_l v b c :
  shape b (length v) c →
  matmul (diag_matrix v) b
  = Matrix c (zip_with (λ x row, mul x <$> row) v (mrows b)).
Proof.
  intros (Hr & Hc & Hrows). unfold matmul. rewrite Hc. f_equal.
  simpl. rewrite fmap_imap. apply list_eq. intros i.
  rewrite list_lookup_imap, lookup_zip_with.
  destruct (v !! i) as [x|] eqn:Hi; [|done]. simpl.
  pose proof (lookup_lt_Some _ _ _ Hi) as Hlt.
  destruct (lookup_lt_is_Some_2 (mrows b) i) as [row Hrow]; [lia|].
  rewrite Hrow. simpl. f_equal.
  assert (length row = c) as Hlen.
  { rewrite Forall_forall in Hrows. apply Hrows.
    by eapply list_elem_of_lookup_2. }
  rewrite <-(fmap_seq_lookup_total (mul x) row), Hlen.
  apply list_fmap_ext. intros k j Hj%lookup_seq. destruct Hj as [-> Hj].
  rewrite dot_insert_l; [|done|by unfold column; rewrite length_fmap].
  unfold column.
  rewrite (list_lookup_total_fmap (λ row : list F, row !!! (0 + k)) (mrows b) i)
    by lia.
  by rewrite (list_lookup_total_correct _ _ _ Hrow).
Qed.

Lemma grouped_indices v (mask : list bool) :
  length v = length mask →
  grouped v mask = (λ i, v !!! i) <$> (free_indices mask ++ cond_indices mask).
Proof.
  intros Hl. unfold grouped.
  by rewrite select_free_indices, select_cond_indices, fmap_app.
Qed.

Lemma transpose_correl (gp : list F) :
  transpose (Matrix (length gp) ((λ pc, calc_correl correl gp pc) <$> gp))
  = Matrix (length gp) ((λ p, (λ pc, correl p pc) <$> gp) <$> gp).
Proof.
  unfold transpose. simpl. rewrite length_fmap. f_equal.
  rewrite <-(fmap_seq_lookup_total (λ p, (λ pc, correl p pc) <$> gp) gp).
  apply list_fmap_ext. intros i j Hj%lookup_seq. destruct Hj as [-> Hj].
  unfold column. simpl. rewrite <-list_fmap_compose.
  apply list_fmap_ext. intros k pc _. simpl. unfold calc_correl.
  by rewrite (list_lookup_total_fmap (λ p, correl p pc) gp (0 + i)).
Qed.

Lemma mul_swap (x y z : F) : mul (mul x y) z = mul (mul x z) y.
Proof. by rewrite <-!mul_assoc', (mul_comm' y z). Qed.

(** The covariance matrix of line 63 is the table of the covariances of the
    grouped periods. *)
Lemma grouped_covar_entries periods ln_stds (mask : list bool) :
  length periods = length mask → length ln_stds = length mask →
  let G := free_indices mask ++ cond_indices mask in
  grouped_covar correl periods ln_stds mask = cov_block correl periods ln_stds G G.
Proof.
  intros Hp Hs G. unfold grouped_covar.
  rewrite transpose_correl.
  rewrite (grouped_indices periods), (grouped_indices ln_stds) by done.
  fold G. set (P := λ i, periods !!! i). set (S := λ i, ln_stds !!! i).
  assert (length (S <$> G) = length (P <$> G)) as Hlen
    by (by rewrite !length_fmap).
  rewrite (matmul_diag_l _ _ (length (P <$> G))).
  2:{ repeat split; simpl; [by rewrite length_fmap|].
      apply Forall_fmap, Forall_true. intros p. simpl. by rewrite length_fmap. }
  rewrite (matmul_diag_r _ _ (length (S <$> G))).
  2:{ repeat split; simpl.
      - rewrite length_zip_with, !length_fmap. lia.
      - done.
      - apply Forall_forall. intros row Hrow.
        apply list_elem_of_lookup in Hrow as [i Hi].
        apply lookup_zip_with_Some in Hi as (x & y & -> & _ & Hy).
        rewrite length_fmap, Hlen.
        apply list_elem_of_lookup_2, list_elem_of_fmap in Hy as (p & -> & _).
        by rewrite length_fmap. }
  unfold cov_block. rewrite length_fmap. f_equal. simpl.
  rewrite zip_with_fmap_l, <-list_fmap_compose, zip_with_fmap_r, zip_with_diag.
  rewrite <-list_fmap_compose. apply list_fmap_ext. intros _ i _. simpl.
  rewrite <-!list_fmap_compose, zip_with_fmap_l, zip_with_fmap_r, zip_with_diag.
  apply list_fmap_ext. intros _ j _. simpl.
  unfold covariance. apply mul_swap.
Qed.

Lemma cov_block_slices periods ln_stds (G1 G2 : list nat) :
  let m := cov_block correl periods ln_stds (G1 ++ G2) (G1 ++ G2) in
  let n := length G1 in
  slice_tt n n m = cov_block correl periods ln_stds G1 G1
  ∧ slice_dd n n m = cov_block correl periods ln_stds G2 G2
  ∧ slice_td n n m = cov_block correl periods ln_stds G1 G2
  ∧ slice_dt n n m = cov_block correl periods ln_stds G2 G1.
Proof.
  intros m n. unfold slice_tt, slice_dd, slice_td, slice_dt, m, n, cov_block.
  cbn [mrows mcols]. rewrite length_app.
  rewrite <-!fmap_take, <-!fmap_drop, take_app_length, drop_app_length.
  rewrite <-!list_fmap_compose.
  split_and!; (f_equal; [lia|]); apply list_fmap_ext; intros _ i _; simpl.
  - by rewrite <-fmap_take, take_app_length.
  - by rewrite <-fmap_drop, drop_app_length.
  - by rewrite <-fmap_drop, drop_app_length.
  - by rewrite <-fmap_take, take_app_length.
Qed.

(** The four blocks of lines 66 to 69 are the covariance blocks of the free
    (masked) and the conditioning (unmasked) periods. *)
Lemma the_blocks_entries periods ln_stds (c : masked_array F) :
  length periods = length (ma_mask c) → length ln_stds = length (ma_mask c) →
  let b := the_blocks correl periods ln_stds c in
  let free := free_indices (ma_mask c) in
  let cond := cond_indices (ma_mask c) in
  mat_covar_11 b = cov_block correl periods ln_stds free free
  ∧ mat_covar_22 b = cov_block correl periods ln_stds cond cond
  ∧ mat_covar_12 b = cov_block correl periods ln_stds free cond
  ∧ mat_covar_21 b = cov_block correl periods ln_stds cond free.
Proof.
  intros Hp Hs b free cond. unfold b, the_blocks.
  cbn [mat_covar_11 mat_covar_22 mat_covar_12 mat_covar_21].
  rewrite grouped_covar_entries by done.
  replace (count_masked c) with (length free)
    by (unfold free; by rewrite length_free_indices).
  apply cov_block_slices.
Qed.

End covariance.

(** ** Properties of the solver *)


Lemma cond_indices_lookup_inv (mask : list bool) i :
  mask !! i = Some false → ∃ j, cond_indices mask !! j = Some i.
Proof.
  intros Hi. apply list_elem_of_lookup, list_elem_of_filter. split; [done|].
  apply elem_of_seq. apply lookup_lt_Some in Hi. lia.
Qed.

Lemma StronglySorted_filter {A} (R : relation A) (P : A → Prop)
    `{!∀ x, Decision (P x)} (l : list A) :
  StronglySorted R l → StronglySorted R (filter P l).
Proof.
  induction 1 as [|x l Hl IH Hx]; [constructor|].
  rewrite filter_cons. case_decide; [|done].
  constructor; [done|]. rewrite Forall_forall in Hx |- *.
  intros y [_ Hy]%list_elem_of_filter. by apply Hx.
Qed.

Lemma Sorted_lt_seq s n : Sorted lt (seq s n).
Proof.
  revert s. induction n as [|n IH]; intros s; simpl; constructor; [done|].
  destruct n; simpl; constructor. lia.
Qed.

Lemma Sorted_lt_indices (P : nat → Prop) `{!∀ x, Decision (P x)} n :
  Sorted lt (filter P (seq 0 n)).
Proof.
  apply StronglySorted_Sorted, StronglySorted_filter.
  apply Sorted_StronglySorted; [apply _|apply Sorted_lt_seq].
Qed.

Section claims.
Context {F : Type} `{Num F} `{!OrderLaws F}.
Variable correl : F → F → F.
Variable inv : matrix F → option (matrix F).
Implicit Types (periods ln_psas ln_stds : list F) (c : masked_array F).

(** The unmasked entries of the result of a valid input: the stored targets
    and zero. *)
Lemma calc_unmasked_entries periods ln_psas ln_stds c minv :
  valid_input periods ln_psas ln_stds c →
  inv (mat_covar_22 (the_blocks correl periods ln_stds c)) = Some minv →
  ∃ ln_psas_cmsv ln_stds_cmsv,
    calc_cond_mean_spectrum_vector correl inv periods ln_psas ln_stds c
    = Ok (ln_psas_cmsv, ln_stds_cmsv)
    ∧ ∀ i, ma_mask c !! i = Some false →
        ln_psas_cmsv !! i = ma_data c !! i ∧ ln_stds_cmsv !! i = Some zero.
Proof.
  intros Hv Hinv. eexists _, _. split; [by apply calc_valid|].
  destruct Hv as (Hinc & Hne & Hp & Hs & Hd & Hm).
  intros i Hi. split.
  - apply ungroup_lookup_unmasked; [congruence| |done].
    apply length_masked_mean; congruence.
  - destruct (cond_indices_lookup_inv _ _ Hi) as [j Hj].
    rewrite (ungroup_lookup_cond _ _ _ j i); [| |apply length_np_zeros|done].
    + apply lookup_replicate_2. apply lookup_lt_Some in Hj.
      by rewrite length_cond_indices in Hj.
    + apply length_masked_std; congruence.
Qed.

(** C1. For every valid input (increasing periods, arrays of one length)
    whose conditioning block [np.linalg.inv] inverts, the solver returns, and
    at every conditioning index, that is at every unmasked entry of
    [ln_psas_cond], the returned conditional log-mean is the supplied target
    itself and the returned conditional log-std is zero. *)
Theorem conditioning_entries_exact periods ln_psas ln_stds c minv :
  valid_input periods ln_psas ln_stds c →
  inv (mat_covar_22 (the_blocks correl periods ln_stds c)) = Some minv →
  ∃ ln_psas_cmsv ln_stds_cmsv,
    calc_cond_mean_spectrum_vector correl inv periods ln_psas ln_stds c
    = Ok (ln_psas_cmsv, ln_stds_cmsv)
    ∧ ∀ i, i ∈ cond_indices (ma_mask c) →
        ln_psas_cmsv !! i = ma_data c !! i ∧ ln_stds_cmsv !! i = Some zero.
Proof.
  intros Hv Hinv.
  destruct (calc_unmasked_entries _ _ _ _ _ Hv Hinv) as (psas & stds & Hr & Hu).
  exists psas, stds. split; [done|].
  intros i [Hi _]%list_elem_of_filter. by apply Hu.
Qed.


(** C6. On periods that are not strictly increasing the solver raises the
    [ValueError] of line 50, whatever its other arguments are. *)
Theorem not_increasing_raises periods ln_psas ln_stds c :
  ¬ strictly_increasing periods →
  calc_cond_mean_spectrum_vector correl inv periods ln_psas ln_stds c
  = Raise (ValueError "`periods` must be increasing").
Proof.
  intros Hinc. unfold calc_cond_mean_spectrum_vector.
  destruct (np_all _) eqn:Hall; [|done].
  by apply increasing_check in Hall.
Qed.

(** The solver reads the masked array only through its mask and its
    unmasked data. *)
Lemma calc_ext periods ln_psas ln_stds c c' :
  ma_mask c' = ma_mask c →
  select (ma_data c') (invert (ma_mask c))
  = select (ma_data c) (invert (ma_mask c)) →
  calc_cond_mean_spectrum_vector correl inv periods ln_psas ln_stds c'
  = calc_cond_mean_spectrum_vector correl inv periods ln_psas ln_stds c.
Proof.
  destruct c as [d m], c' as [d' m']. simpl. intros -> Hsel.
  unfold calc_cond_mean_spectrum_vector, partition_covar, cond_grouped,
    count_masked, ma_count, ma_select_data. simpl. by rewrite Hsel.
Qed.

(** C10. The conditioning periods are the unmasked entries of
    [ln_psas_cond]: the values stored at its masked entries are ignored, the
    block that is inverted has as many rows and columns as there are unmasked
    entries, and the unmasked entries supply the targets the result takes. *)
Theorem unmasked_are_conditioning periods ln_psas ln_stds c c' minv :
  valid_input periods ln_psas ln_stds c →
  ma_mask c' = ma_mask c → length (ma_data c') = length periods →
  (∀ i, ma_mask c !! i = Some false → ma_data c' !! i = ma_data c !! i) →
  inv (mat_covar_22 (the_blocks correl periods ln_stds c)) = Some minv →
  calc_cond_mean_spectrum_vector correl inv periods ln_psas ln_stds c'
  = calc_cond_mean_spectrum_vector correl inv periods ln_psas ln_stds c
  ∧ shape (mat_covar_22 (the_blocks correl periods ln_stds c))
          (ma_count c) (ma_count c)
  ∧ length (cond_indices (ma_mask c)) = ma_count c
  ∧ ∃ ln_psas_cmsv ln_stds_cmsv,
      calc_cond_mean_spectrum_vector correl inv periods ln_psas ln_stds c
      = Ok (ln_psas_cmsv, ln_stds_cmsv)
      ∧ ∀ i, ma_mask c !! i = Some false →
          ln_psas_cmsv !! i = ma_data c !! i ∧ ln_stds_cmsv !! i = Some zero.
Proof.
  intros Hv Hmask Hd' Hagree Hinv. split_and!.
  - destruct Hv as (_ & _ & _ & _ & Hd & Hm).
    apply calc_ext; [done|]. apply select_invert_agree; [congruence..|done].
  - destruct Hv as (_ & _ & _ & Hs & _ & Hm).
    apply shape_the_blocks. congruence.
  - apply length_cond_indices.
  - by apply calc_unmasked_entries with minv.
Qed.

(** C7, as the code has it.  The solver has no configuration check: on a
    valid input without conditioning periods or without free periods it
    raises [LinAlgError] when [np.linalg.inv] fails on the block of the
    conditioning periods and returns a result otherwise; when every period is
    a conditioning target the result is the targets, with zero standard
    deviations. *)
Theorem no_configuration_check periods ln_psas ln_stds c :
  valid_input periods ln_psas ln_stds c →
  count_masked c = 0 ∨ ma_count c = 0 →
  let block := mat_covar_22 (the_blocks correl periods ln_stds c) in
  (inv block = None →
   calc_cond_mean_spectrum_vector correl inv periods ln_psas ln_stds c
   = Raise LinAlgError)
  ∧ (∀ minv, inv block = Some minv →
     ∃ r, calc_cond_mean_spectrum_vector correl inv periods ln_psas ln_stds c
          = Ok r
          ∧ (count_masked c = 0 → r = (ma_data c, np_zeros (length periods)))).
Proof.
  intros Hv _ block. split.
  - by apply calc_singular.
  - intros minv Hinv. eexists. split; [by apply calc_valid|].
    intros Hn. destruct Hv as (_ & _ & _ & _ & Hd & Hm).
    pose proof (count_masked_ma_count c) as Hsum.
    rewrite Hn in Hsum. simpl in Hsum.
    rewrite !ungroup_none_masked, select_none_masked; try done.
    + by rewrite Hsum, Hm.
    + congruence.
    + by rewrite length_np_zeros.
    + rewrite select_none_masked; [congruence|done|congruence].
Qed.

End claims.

Section claims_exact.
Context {F : Type} `{Num F} `{!OrderLaws F} `{!SemiringLaws F}.
Variable correl : F → F → F.
Implicit Types (periods ln_psas ln_stds : list F) (c : masked_array F).

(** C2. The block the solver inverts is the covariance block of the
    conditioning periods (the unmasked ones, which carry the targets), not
    that of the free periods: [mat_covar_22], the argument of
    [np.linalg.inv] at line 70, has the covariances of the conditioning
    periods as entries; on a valid input the solver raises [LinAlgError]
    when the inversion fails on that block, and when it returns [minv] there
    the result is built from [minv]: the free means are the unconditioned
    means plus cov(free, cond) · [minv] · residual, the free standard
    deviations the square roots of the diagonal of
    cov(free, free) - cov(free, cond) · [minv] · cov(cond, free).  So the
    result depends on the inversion through that block alone. *)
Theorem inverted_block_is_conditioning periods ln_psas ln_stds c
    (inv1 inv2 : matrix F → option (matrix F)) :
  periods ≠ [] →
  length periods = length (ma_mask c) → length ln_stds = length (ma_mask c) →
  let free := free_indices (ma_mask c) in
  let cond := cond_indices (ma_mask c) in
  let block := cov_block correl periods ln_stds cond cond in
  let targets := select (ma_data c) (invert (ma_mask c)) in
  let residual := zip_with sub targets (select ln_psas (invert (ma_mask c))) in
  (∃ b, partition_covar correl periods ln_stds c = Ok b
        ∧ mat_covar_22 b = block)
  ∧ (inv1 block = inv2 block →
     calc_cond_mean_spectrum_vector correl inv1 periods ln_psas ln_stds c
     = calc_cond_mean_spectrum_vector correl inv2 periods ln_psas ln_stds c)
  ∧ (valid_input periods ln_psas ln_stds c →
     (inv1 block = None →
      calc_cond_mean_spectrum_vector correl inv1 periods ln_psas ln_stds c
      = Raise LinAlgError)
     ∧ (∀ minv, inv1 block = Some minv →
        calc_cond_mean_spectrum_vector correl inv1 periods ln_psas ln_stds c
        = Ok (ungroup (ma_mask c)
                (zip_with add (select ln_psas (ma_mask c))
                   (matvec
                      (matmul (cov_block correl periods ln_stds free cond) minv)
                      residual))
                targets,
              ungroup (ma_mask c)
                (sqrt <$> diagonal
                   (matsub (cov_block correl periods ln_stds free free)
                      (matmul
                         (matmul (cov_block correl periods ln_stds free cond)
                                 minv)
                         (cov_block correl periods ln_stds cond free))))
                (np_zeros (ma_count c))))).
Proof.
  intros Hne Hp Hs free cond block targets residual.
  destruct (the_blocks_entries correl periods ln_stds c Hp Hs)
    as (H11 & H22 & H12 & H21).
  fold free cond in H11, H22, H12, H21. fold block in H22.
  split_and!.
  - eexists. split; [by apply partition_covar_ok|done].
  - intros Hinv. unfold calc_cond_mean_spectrum_vector.
    destruct (negb _); [done|].
    rewrite partition_covar_ok by done. rewrite !rbind_ok.
    unfold cond_grouped. by rewrite H22, Hinv.
  - intros Hv. split.
    + intros Hinv. rewrite <-H22 in Hinv.
      exact (calc_singular correl inv1 _ _ _ _ Hv Hinv).
    + intros minv Hinv. rewrite <-H22 in Hinv.
      rewrite (calc_valid correl inv1 _ _ _ _ _ Hv Hinv).
      unfold masked_mean, masked_std. by rewrite H11, H12, H21.
Qed.

(** C3. On a valid input whose conditioning block is inverted, the
    conditional log-mean at the [j]-th free period is the unconditioned
    log-mean there plus the [j]-th entry of (free-to-conditioning covariance
    block) · (inverse of the conditioning block) · residual, the residual being
    the target minus the unconditioned log-mean at the conditioning periods. *)
Theorem free_mean_formula (inv : matrix F → option (matrix F))
    periods ln_psas ln_stds c minv :
  valid_input periods ln_psas ln_stds c →
  let free := free_indices (ma_mask c) in
  let cond := cond_indices (ma_mask c) in
  let residual := (λ k, sub (ma_data c !!! k) (ln_psas !!! k)) <$> cond in
  inv (cov_block correl periods ln_stds cond cond) = Some minv →
  ∃ ln_psas_cmsv ln_stds_cmsv,
    calc_cond_mean_spectrum_vector correl inv periods ln_psas ln_stds c
    = Ok (ln_psas_cmsv, ln_stds_cmsv)
    ∧ ∀ j i, free !! j = Some i →
        ln_psas_cmsv !! i
        = Some (add (ln_psas !!! i)
                  (matvec (matmul (cov_block correl periods ln_stds free cond) minv)
                          residual !!! j)).
Proof.
  intros Hv free cond residual Hinv.
  pose proof Hv as (Hinc & Hne & Hp & Hs & Hd & Hm).
  destruct (the_blocks_entries correl periods ln_stds c) as (_ & H22 & H12 & _);
    [congruence..|].
  fold cond in H22, H12. fold free in H12. rewrite <-H22 in Hinv.
  eexists _, _. split; [by apply calc_valid|].
  intros j i Hj.
  rewrite (ungroup_lookup_free _ _ _ j i); [| | |done].
  2:{ apply length_masked_mean; congruence. }
  2:{ apply length_select_invert; congruence. }
  unfold masked_mean. rewrite H12.
  rewrite (select_free_indices ln_psas), (select_cond_indices ln_psas),
    (select_cond_indices (ma_data c)) by congruence.
  fold free cond.
  assert (zip_with sub ((λ k, ma_data c !!! k) <$> cond)
            ((λ k, ln_psas !!! k) <$> cond) = residual) as ->.
  { by rewrite zip_with_fmap_l, zip_with_fmap_r, zip_with_diag. }
  rewrite lookup_zip_with, list_lookup_fmap, Hj. simpl.
  rewrite (list_lookup_lookup_total_lt (matvec _ _) j); [done|].
  unfold matvec, matmul. simpl. rewrite !length_fmap.
  by apply lookup_lt_Some in Hj.
Qed.

(** C4. On a valid input whose conditioning block is inverted, the
    conditional log-std at the [j]-th free period is the square root of the
    [j]-th diagonal entry of the Schur complement of the conditioning block:
    free-free block minus (free-to-conditioning block) · (inverse of the
    conditioning block) · (conditioning-to-free block). *)
Theorem free_std_schur (inv : matrix F → option (matrix F))
    periods ln_psas ln_stds c minv :
  valid_input periods ln_psas ln_stds c →
  let free := free_indices (ma_mask c) in
  let cond := cond_indices (ma_mask c) in
  let schur :=
    matsub (cov_block correl periods ln_stds free free)
      (matmul (matmul (cov_block correl periods ln_stds free cond) minv)
              (cov_block correl periods ln_stds cond free)) in
  inv (cov_block correl periods ln_stds cond cond) = Some minv →
  ∃ ln_psas_cmsv ln_stds_cmsv,
    calc_cond_mean_spectrum_vector correl inv periods ln_psas ln_stds c
    = Ok (ln_psas_cmsv, ln_stds_cmsv)
    ∧ ∀ j i, free !! j = Some i →
        ln_stds_cmsv !! i = Some (sqrt (mat_entry schur j j)).
Proof.
  intros Hv free cond schur Hinv.
  pose proof Hv as (Hinc & Hne & Hp & Hs & Hd & Hm).
  destruct (the_blocks_entries correl periods ln_stds c)
    as (H11 & H22 & H12 & H21); [congruence..|].
  fold cond in H22, H12, H21. fold free in H11, H12, H21.
  rewrite <-H22 in Hinv.
  eexists _, _. split; [by apply calc_valid|].
  intros j i Hj.
  rewrite (ungroup_lookup_free _ _ _ j i); [| | |done].
  2:{ apply length_masked_std; congruence. }
  2:{ apply length_np_zeros. }
  pose proof (shape_schur correl periods ln_stds c minv) as Hshape.
  cbv zeta in Hshape. rewrite H11, H12, H21 in Hshape. fold schur in Hshape.
  assert (length ln_stds = length (ma_mask c)) as Hs' by congruence.
  specialize (Hshape Hs').
  unfold masked_std. rewrite H11, H12, H21. fold schur.
  rewrite (diagonal_square _ _ Hshape).
  destruct Hshape as (Hrows & _).
  rewrite list_lookup_fmap, list_lookup_imap.
  apply lookup_lt_Some in Hj. unfold free in Hj.
  rewrite length_free_indices in Hj.
  rewrite (list_lookup_lookup_total_lt (mrows schur) j); [done|].
  by rewrite Hrows.
Qed.

End claims_exact.

Section grouping_claim.
Context {F : Type} `{Num F}.
Variable correl : F → F → F.

(** C8, as the code has it.  The grouping of line 56 places the free
    (masked) periods first and the conditioning (unmasked) periods after
    them, each group in the order of the input. *)
Theorem grouping_free_then_conditioning
    (periods ln_stds : list F) (c : masked_array F) :
  periods ≠ [] →
  length periods = length (ma_mask c) → length ln_stds = length (ma_mask c) →
  let free := free_indices (ma_mask c) in
  let cond := cond_indices (ma_mask c) in
  ∃ b, partition_covar correl periods ln_stds c = Ok b
       ∧ periods_grouped b
         = ((λ i, periods !!! i) <$> free) ++ ((λ i, periods !!! i) <$> cond)
       ∧ Sorted lt free ∧ Sorted lt cond.
Proof.
  intros Hne Hp Hs free cond. eexists. split; [by apply partition_covar_ok|].
  split_and!.
  - simpl. unfold grouped.
    by rewrite select_free_indices, select_cond_indices.
  - apply Sorted_lt_indices.
  - apply Sorted_lt_indices.
Qed.

End grouping_claim.

(** ** The rationals satisfy the laws *)

Import Exact.

Lemma Qc_ltb_lt (x y : Qc) : Qc_ltb x y = true ↔ (x < y)%Qc.
Proof.
  unfold Qc_ltb. rewrite Qclt_alt. destruct (x ?= y)%Qc; naive_solver.
Qed.

Lemma Qc_ltb_iff (x y x' y' : Qc) :
  ((x < y)%Qc ↔ (x' < y')%Qc) → Qc_ltb x y = Qc_ltb x' y'.
Proof.
  rewrite <-!Qc_ltb_lt. destruct (Qc_ltb x y), (Qc_ltb x' y'); try done.
  - intros [Hxy _]. symmetry. by apply Hxy.
  - intros [_ Hxy]. by apply Hxy.
Qed.

#[global] Instance Qc_semiring_laws : SemiringLaws Qc.
Proof.
  split.
  - exact Qcplus_0_l.
  - exact Qcplus_0_r.
  - exact Qcmult_0_l.
  - exact Qcmult_0_r.
  - exact Qcmult_comm.
  - exact Qcmult_assoc.
Qed.

#[global] Instance Qc_order_laws : OrderLaws Qc.
Proof.
  split.
  - intros x y z. rewrite !Qc_ltb_lt. apply Qclt_trans.
  - intros x y Hxy%Qc_ltb_lt. destruct (Qc_ltb y x) eqn:Hyx; [|done].
    apply Qc_ltb_lt in Hyx. apply Qclt_not_le in Hxy. destruct Hxy.
    by apply Qclt_le_weak.
  - intros x y. apply Qc_ltb_iff. symmetry. apply Qclt_minus_iff.
Qed.

Lemma periods5_increasing : strictly_increasing periods5.
Proof. by apply increasing_check. Qed.

Lemma valid_target_at_half :
  valid_input periods5 ln_psas5 ln_stds5 target_at_half.
Proof. split_and!; [apply periods5_increasing|done..]. Qed.

Lemma valid_all_targets : valid_input periods5 ln_psas5 ln_stds5 all_targets.
Proof. split_and!; [apply periods5_increasing|done..]. Qed.

(** ** The properties at the scenario of the specification *)

Lemma conditioning_entries_exact_witness :
  ∃ ln_psas_cmsv ln_stds_cmsv,
    calc_cond_mean_spectrum_vector rho inv periods5 ln_psas5 ln_stds5
      target_at_half
    = Ok (ln_psas_cmsv, ln_stds_cmsv)
    ∧ ∀ i, i ∈ cond_indices (ma_mask target_at_half) →
        ln_psas_cmsv !! i = ma_data target_at_half !! i
        ∧ ln_stds_cmsv !! i = Some zero.
Proof.
  eapply (conditioning_entries_exact rho inv periods5 ln_psas5 ln_stds5
            target_at_half).
  - apply valid_target_at_half.
  - vm_compute. reflexivity.
Defined.


Lemma not_increasing_raises_witness :
  ¬ strictly_increasing [q 1 2; q 1 5; q 1 1]
  ∧ calc_cond_mean_spectrum_vector rho inv [q 1 2; q 1 5; q 1 1]
      [q (-1) 1; q (-1) 1; q (-2) 1] [q 3 5; q 3 5; q 3 5]
      (MaskedArray [q 0 1; q (-1) 1; q 0 1] [true; false; true])
    = Raise (ValueError "`periods` must be increasing").
Proof.
  assert (¬ strictly_increasing [q 1 2; q 1 5; q 1 1]) as Hn.
  { intros Hinc. by specialize (Hinc 0 (q 1 2) (q 1 5) eq_refl eq_refl). }
  split; [exact Hn|].
  by apply (not_increasing_raises rho inv).
Defined.

Lemma unmasked_are_conditioning_witness :
  calc_cond_mean_spectrum_vector rho inv periods5 ln_psas5 ln_stds5
    target_at_half'
  = calc_cond_mean_spectrum_vector rho inv periods5 ln_psas5 ln_stds5
      target_at_half
  ∧ shape (mat_covar_22 (the_blocks rho periods5 ln_stds5 target_at_half))
          (ma_count target_at_half) (ma_count target_at_half)
  ∧ length (cond_indices (ma_mask target_at_half)) = ma_count target_at_half
  ∧ ∃ ln_psas_cmsv ln_stds_cmsv,
      calc_cond_mean_spectrum_vector rho inv periods5 ln_psas5 ln_stds5
        target_at_half
      = Ok (ln_psas_cmsv, ln_stds_cmsv)
      ∧ ∀ i, ma_mask target_at_half !! i = Some false →
          ln_psas_cmsv !! i = ma_data target_at_half !! i
          ∧ ln_stds_cmsv !! i = Some zero.
Proof.
  eapply (unmasked_are_conditioning rho inv periods5 ln_psas5 ln_stds5
            target_at_half target_at_half').
  - apply valid_target_at_half.
  - reflexivity.
  - reflexivity.
  - intros [|[|[|[|[|i]]]]] Hi; simplify_eq/=. reflexivity.
  - vm_compute. reflexivity.
Defined.

(** C7 as stated fails: with every period a conditioning target the solver
    raises nothing and returns the targets. *)
Lemma all_conditioning_returns :
  ma_count all_targets = length periods5
  ∧ calc_cond_mean_spectrum_vector rho inv periods5 ln_psas5 ln_stds5
      all_targets
    = Ok (ma_data all_targets, replicate 5 0%Qc).
Proof. split; [reflexivity|]. vm_compute. reflexivity. Qed.

Lemma no_configuration_check_witness :
  let block := mat_covar_22 (the_blocks rho periods5 ln_stds5 all_targets) in
  (inv block = None →
   calc_cond_mean_spectrum_vector rho inv periods5 ln_psas5 ln_stds5
     all_targets
   = Raise LinAlgError)
  ∧ (∀ minv, inv block = Some minv →
     ∃ r, calc_cond_mean_spectrum_vector rho inv periods5 ln_psas5 ln_stds5
            all_targets
          = Ok r
          ∧ (count_masked all_targets = 0 →
             r = (ma_data all_targets, np_zeros (length periods5)))).
Proof.
  apply (no_configuration_check rho inv periods5 ln_psas5 ln_stds5 all_targets).
  - apply valid_all_targets.
  - left. reflexivity.
Defined.

(** C8 as stated fails: the grouped periods do not start with the
    conditioning period 0.5 s. *)
Lemma grouping_not_conditioning_first :
  ∃ b, partition_covar rho periods5 ln_stds5 target_at_half = Ok b
       ∧ periods_grouped b = [q 1 10; q 1 5; q 1 1; q 2 1; q 1 2]
       ∧ (λ i, periods5 !!! i) <$> cond_indices (ma_mask target_at_half)
         = [q 1 2]
       ∧ (λ i, periods5 !!! i) <$> free_indices (ma_mask target_at_half)
         = [q 1 10; q 1 5; q 1 1; q 2 1]
       ∧ periods_grouped b
         ≠ ((λ i, periods5 !!! i) <$> cond_indices (ma_mask target_at_half))
           ++ ((λ i, periods5 !!! i) <$> free_indices (ma_mask target_at_half)).
Proof.
  eexists. split; [by apply partition_covar_ok|].
  split_and!; [reflexivity..|].
  intros Heq. apply (f_equal (λ l, Qnum <$> (this <$> l))) in Heq.
  vm_compute in Heq. discriminate.
Qed.

Lemma grouping_free_then_conditioning_witness :
  let free := free_indices (ma_mask target_at_half) in
  let cond := cond_indices (ma_mask target_at_half) in
  ∃ b, partition_covar rho periods5 ln_stds5 target_at_half = Ok b
       ∧ periods_grouped b
         = ((λ i, periods5 !!! i) <$> free) ++ ((λ i, periods5 !!! i) <$> cond)
       ∧ Sorted lt free ∧ Sorted lt cond.
Proof.
  apply (grouping_free_then_conditioning rho periods5 ln_stds5 target_at_half);
    done.
Defined.

Lemma inverted_block_is_conditioning_witness :
  let free := free_indices (ma_mask target_at_half) in
  let cond := cond_indices (ma_mask target_at_half) in
  let block := cov_block rho periods5 ln_stds5 cond cond in
  let targets :=
    select (ma_data target_at_half) (invert (ma_mask target_at_half)) in
  let residual :=
    zip_with sub targets (select ln_psas5 (invert (ma_mask target_at_half))) in
  (∃ b, partition_covar rho periods5 ln_stds5 target_at_half = Ok b
        ∧ mat_covar_22 b = block)
  ∧ calc_cond_mean_spectrum_vector rho inv periods5 ln_psas5 ln_stds5
      target_at_half
    = calc_cond_mean_spectrum_vector rho inv_scalar periods5 ln_psas5 ln_stds5
        target_at_half
  ∧ calc_cond_mean_spectrum_vector rho inv_fails periods5 ln_psas5 ln_stds5
      target_at_half
    = Raise LinAlgError
  ∧ ∃ minv,
      inv block = Some minv
      ∧ calc_cond_mean_spectrum_vector rho inv periods5 ln_psas5 ln_stds5
          target_at_half
        = Ok (ungroup (ma_mask target_at_half)
                (zip_with add (select ln_psas5 (ma_mask target_at_half))
                   (matvec
                      (matmul (cov_block rho periods5 ln_stds5 free cond) minv)
                      residual))
                targets,
              ungroup (ma_mask target_at_half)
                (sqrt <$> diagonal
                   (matsub (cov_block rho periods5 ln_stds5 free free)
                      (matmul
                         (matmul (cov_block rho periods5 ln_stds5 free cond)
                                 minv)
                         (cov_block rho periods5 ln_stds5 cond free))))
                (np_zeros (ma_count target_at_half))).
Proof.
  intros free cond block targets residual.
  destruct (inverted_block_is_conditioning rho periods5 ln_psas5 ln_stds5
              target_at_half inv inv_scalar)
    as (Hblock & Hsame & Hinv); [done..|].
  destruct (inverted_block_is_conditioning rho periods5 ln_psas5 ln_stds5
              target_at_half inv_fails inv_fails)
    as (_ & _ & Hfails); [done..|].
  assert (∃ minv, inv block = Some minv) as [minv Hminv]
    by (eexists; vm_compute; reflexivity).
  split_and!.
  - exact Hblock.
  - apply Hsame. reflexivity.
  - apply Hfails; [apply valid_target_at_half|reflexivity].
  - exists minv. split; [exact Hminv|].
    apply Hinv; [apply valid_target_at_half|exact Hminv].
Defined.

Lemma free_mean_formula_witness :
  let free := free_indices (ma_mask target_at_half) in
  let cond := cond_indices (ma_mask target_at_half) in
  let residual :=
    (λ k, sub (ma_data target_at_half !!! k) (ln_psas5 !!! k)) <$> cond in
  ∃ minv ln_psas_cmsv ln_stds_cmsv,
    inv (cov_block rho periods5 ln_stds5 cond cond) = Some minv
    ∧ calc_cond_mean_spectrum_vector rho inv periods5 ln_psas5 ln_stds5
        target_at_half
      = Ok (ln_psas_cmsv, ln_stds_cmsv)
    ∧ ∀ j i, free !! j = Some i →
        ln_psas_cmsv !! i
        = Some (add (ln_psas5 !!! i)
                  (matvec (matmul (cov_block rho periods5 ln_stds5 free cond) minv)
                          residual !!! j)).
Proof.
  intros free cond residual.
  assert (∃ minv, inv (cov_block rho periods5 ln_stds5 cond cond) = Some minv)
    as [minv Hinv] by (eexists; vm_compute; reflexivity).
  destruct (free_mean_formula rho inv periods5 ln_psas5 ln_stds5
              target_at_half minv valid_target_at_half Hinv)
    as (psas & stds & Hcalc & Hfree).
  exists minv, psas, stds. split_and!; [exact Hinv|exact Hcalc|exact Hfree].
Defined.

Lemma free_std_schur_witness :
  let free := free_indices (ma_mask target_at_half) in
  let cond := cond_indices (ma_mask target_at_half) in
  ∃ minv ln_psas_cmsv ln_stds_cmsv,
    inv (cov_block rho periods5 ln_stds5 cond cond) = Some minv
    ∧ calc_cond_mean_spectrum_vector rho inv periods5 ln_psas5 ln_stds5
        target_at_half
      = Ok (ln_psas_cmsv, ln_stds_cmsv)
    ∧ ∀ j i, free !! j = Some i →
        ln_stds_cmsv !! i
        = Some (sqrt (mat_entry
             (matsub (cov_block rho periods5 ln_stds5 free free)
                (matmul (matmul (cov_block rho periods5 ln_stds5 free cond) minv)
                        (cov_block rho periods5 ln_stds5 cond free))) j j)).
Proof.
  intros free cond.
  assert (∃ minv, inv (cov_block rho periods5 ln_stds5 cond cond) = Some minv)
    as [minv Hinv] by (eexists; vm_compute; reflexivity).
  destruct (free_std_schur rho inv periods5 ln_psas5 ln_stds5
              target_at_half minv valid_target_at_half Hinv)
    as (psas & stds & Hcalc & Hfree).
  exists minv, psas, stds. split_and!; [exact Hinv|exact Hcalc|exact Hfree].
Defined.

(** C9.  The declared domain of [mechanism] is [SS] and [RS] only: the
    normal-slip option [NS], which the docstring lists as valid and which
    [_calc_ln_resp] evaluates like [SS], is outside it, so a normal-slip
    event is rejected by the validation while the same event tagged [SS]
    or [RS] passes. *)
Theorem mechanism_NS_outside_domain :
  In "NS"%string Idriss2014.documented_mechanisms
  ∧ In (Idriss2014.CategoricalParameter "mechanism" true ["SS"; "RS"]%string "SS")
       Idriss2014.PARAMS
  ∧ ¬ In "NS"%string ["SS"; "RS"]%string
  ∧ Idriss2014.flag_mech "NS" = Idriss2014.flag_mech "SS"
  ∧ Idriss2014.validate Idriss2014.PARAMS (Idriss2014.normal_slip "SS")
    = Idriss2014.Valid
  ∧ Idriss2014.validate Idriss2014.PARAMS (Idriss2014.normal_slip "RS")
    = Idriss2014.Valid
  ∧ Idriss2014.validate Idriss2014.PARAMS (Idriss2014.normal_slip "NS")
    = Idriss2014.ValidationError "mechanism".
Proof.
  split_and!; try reflexivity.
  - simpl. tauto.
  - simpl. tauto.
  - simpl. intros [Heq|[Heq|[]]]; discriminate.
Qed.

(** * Further properties of the solver *)

(** ** Errors and edge cases *)

Section outcomes.
Context {F : Type} `{Num F} `{!OrderLaws F}.
Variable correl : F → F → F.
Variable inv : matrix F → option (matrix F).
Implicit Types (periods ln_psas ln_stds : list F) (c : masked_array F).

(** X1. On a valid input the only failure is that of the inversion: the
    solver raises [LinAlgError] exactly when [np.linalg.inv] fails on
    [mat_covar_22], and returns a result exactly when it succeeds. *)
Theorem valid_outcome periods ln_psas ln_stds c :
  valid_input periods ln_psas ln_stds c →
  let block := mat_covar_22 (the_blocks correl periods ln_stds c) in
  (inv block = None
   ↔ calc_cond_mean_spectrum_vector correl inv periods ln_psas ln_stds c
     = Raise LinAlgError)
  ∧ (is_Some (inv block)
     ↔ ∃ r, calc_cond_mean_spectrum_vector correl inv periods ln_psas ln_stds c
            = Ok r).
Proof.
  intros Hv block. destruct (inv block) as [minv|] eqn:Hinv.
  - pose proof (calc_valid correl inv _ _ _ _ _ Hv Hinv) as Hcalc.
    rewrite Hcalc. split; split; try done. by eexists.
  - pose proof (calc_singular correl inv _ _ _ _ Hv Hinv) as Hcalc.
    rewrite Hcalc. split; split; try done; by intros [? ?].
Qed.

(** X2. With increasing periods, a mask or an [ln_stds] whose length is not
    that of [periods] ends in the [IndexError] of the boolean indexing of
    lines 56 and 58. *)
Theorem mask_length_mismatch periods ln_psas ln_stds c :
  strictly_increasing periods →
  length periods ≠ length (ma_mask c)
  ∨ length ln_stds ≠ length (ma_mask c) →
  calc_cond_mean_spectrum_vector correl inv periods ln_psas ln_stds c
  = Raise IndexError.
Proof.
  intros Hinc Hlen. unfold calc_cond_mean_spectrum_vector.
  rewrite (proj2 (increasing_check periods) Hinc). simpl.
  unfold partition_covar, bool_index. rewrite !length_invert.
  destruct (decide (length periods = length (ma_mask c))) as [Hp|Hp]; [|done].
  destruct Hlen as [Hlen|Hlen]; [done|].
  simpl. by rewrite !decide_False.
Qed.

(** X3. An [ln_psas] of the wrong length is noticed only at line 72, after
    the inversion: the solver raises [IndexError] when the inversion
    succeeded and [LinAlgError] when it failed. *)
Theorem ln_psas_length_mismatch periods ln_psas ln_stds c :
  strictly_increasing periods → periods ≠ [] →
  length periods = length (ma_mask c) → length ln_stds = length (ma_mask c) →
  length ln_psas ≠ length (ma_mask c) →
  calc_cond_mean_spectrum_vector correl inv periods ln_psas ln_stds c
  = match inv (mat_covar_22 (the_blocks correl periods ln_stds c)) with
    | Some _ => Raise IndexError
    | None => Raise LinAlgError
    end.
Proof.
  intros Hinc Hne Hp Hs Hpsas. unfold calc_cond_mean_spectrum_vector.
  rewrite (proj2 (increasing_check periods) Hinc). simpl.
  rewrite partition_covar_ok by done. rewrite rbind_ok.
  unfold cond_grouped.
  destruct (inv _) as [minv|]; [|done]. rewrite rbind_ok.
  unfold bool_index. rewrite length_invert.
  destruct (decide (length ln_psas = length (ma_mask c))); done.
Qed.

(** X4. Empty arrays pass the ordering check and fail in [np.vstack] at
    line 60. *)
Theorem empty_input ln_psas (data : list F) :
  calc_cond_mean_spectrum_vector correl inv [] ln_psas [] (MaskedArray data [])
  = Raise (ValueError "need at least one array to concatenate").
Proof. reflexivity. Qed.

(** X5. The conditional standard deviations depend on the periods, on
    [ln_stds] and on the mask only: neither [ln_psas] nor the targets change
    them. *)
Theorem stds_independent_of_means periods ln_psas ln_psas' ln_stds c c' minv :
  valid_input periods ln_psas ln_stds c →
  valid_input periods ln_psas' ln_stds c' →
  ma_mask c' = ma_mask c →
  inv (mat_covar_22 (the_blocks correl periods ln_stds c)) = Some minv →
  ∃ ln_psas_cmsv ln_psas_cmsv' ln_stds_cmsv,
    calc_cond_mean_spectrum_vector correl inv periods ln_psas ln_stds c
    = Ok (ln_psas_cmsv, ln_stds_cmsv)
    ∧ calc_cond_mean_spectrum_vector correl inv periods ln_psas' ln_stds c'
      = Ok (ln_psas_cmsv', ln_stds_cmsv).
Proof.
  intros Hv Hv' Hmask Hinv.
  assert (the_blocks correl periods ln_stds c'
          = the_blocks correl periods ln_stds c) as Hb.
  { unfold the_blocks, count_masked. by rewrite Hmask. }
  assert (ma_count c' = ma_count c) as Hn.
  { unfold ma_count. by rewrite Hmask. }
  eexists _, _, _. split; [by apply calc_valid|].
  rewrite (calc_valid correl inv periods ln_psas' ln_stds c' minv Hv').
  - by rewrite Hb, Hmask, Hn.
  - by rewrite Hb.
Qed.

(** X6. The grouping of line 56 rearranges the periods without losing or
    repeating one, and [n] of line 65 together with the number of
    conditioning periods makes up their number. *)
Theorem grouping_is_permutation periods ln_stds c :
  periods ≠ [] →
  length periods = length (ma_mask c) → length ln_stds = length (ma_mask c) →
  ∃ b, partition_covar correl periods ln_stds c = Ok b
       ∧ periods_grouped b ≡ₚ periods
       ∧ n_masked b + ma_count c = length periods.
Proof.
  intros Hne Hp Hs. eexists. split; [by apply partition_covar_ok|]. split.
  - by apply select_partition.
  - simpl. by rewrite count_masked_ma_count.
Qed.

End outcomes.

(** ** The conditional mean in special cases *)

Lemma ungroup_select {A} (a : list A) (m : list bool) :
  length a = length m → ungroup m (select a m) (select a (invert m)) = a.
Proof.
  revert a. induction m as [|[] m IH]; intros [|x a] Hl; simplify_eq/=;
    by rewrite ?IH.
Qed.

Lemma select_all_masked {A} (a : list A) (m : list bool) :
  length (filter (λ b, b = false) m) = 0 → length a = length m →
  select a m = a ∧ select a (invert m) = [].
Proof.
  revert a. induction m as [|[] m IH]; intros [|x a] Hn Hl;
    simplify_eq/=; filter_bool; simplify_eq/=; [done|].
  by destruct (IH a) as [-> ->].
Qed.

Section special_cases.
Context {F : Type} `{Num F} `{!OrderLaws F} `{!SemiringLaws F}.
Variable correl : F → F → F.
Variable inv : matrix F → option (matrix F).
Implicit Types (periods ln_psas ln_stds v : list F) (c : masked_array F).

Lemma zip_with_add_zeros v n :
  length v = n → zip_with add v (np_zeros n) = v.
Proof.
  intros <-. unfold np_zeros. induction v as [|x v IH]; [done|].
  simpl. by rewrite add_zero_r, IH.
Qed.

Lemma zip_with_sub_diag v :
  (∀ x : F, sub x x = zero) → zip_with sub v v = np_zeros (length v).
Proof.
  intros Hsub. unfold np_zeros. induction v as [|x v IH]; [done|].
  simpl. by rewrite Hsub, IH.
Qed.

Lemma matvec_zeros (a : matrix F) n :
  matvec a (np_zeros n) = np_zeros (length (mrows a)).
Proof.
  unfold matvec. induction (mrows a) as [|row rows IH]; [done|].
  rewrite fmap_cons, dot_zeros_r, IH. done.
Qed.

(** X7. When every target is the unconditioned log-mean of its period, the
    conditional log-mean is the unconditioned one at every period
    (exact arithmetic, with [x - x = 0]). *)
Theorem targets_on_the_mean periods ln_psas ln_stds c minv :
  (∀ x : F, sub x x = zero) →
  valid_input periods ln_psas ln_stds c →
  (∀ i, ma_mask c !! i = Some false → ma_data c !! i = ln_psas !! i) →
  inv (mat_covar_22 (the_blocks correl periods ln_stds c)) = Some minv →
  ∃ ln_stds_cmsv,
    calc_cond_mean_spectrum_vector correl inv periods ln_psas ln_stds c
    = Ok (ln_psas, ln_stds_cmsv).
Proof.
  intros Hsub Hv Htarget Hinv. eexists.
  rewrite (calc_valid correl inv _ _ _ _ _ Hv Hinv).
  destruct Hv as (Hinc & Hne & Hp & Hs & Hd & Hm).
  assert (select (ma_data c) (invert (ma_mask c))
          = select ln_psas (invert (ma_mask c))) as Hsel.
  { apply select_invert_agree; [congruence..|done]. }
  assert (masked_mean (the_blocks correl periods ln_stds c) minv ln_psas c
          = select ln_psas (ma_mask c)) as Hmean.
  { unfold masked_mean. rewrite Hsel, (zip_with_sub_diag _ Hsub), matvec_zeros.
    apply zip_with_add_zeros. rewrite length_select by congruence.
    destruct (shape_the_blocks correl periods ln_stds c) as (_ & (H12 & _) & _);
      [congruence|].
    by destruct (shape_matmul
                   (mat_covar_12 (the_blocks correl periods ln_stds c)) minv _ H12)
      as (-> & _). }
  rewrite Hmean, Hsel, ungroup_select by congruence. done.
Qed.

(** X8. Without any conditioning period (everything masked), and with an
    inversion that accepts the empty block, the conditional log-mean is the
    unconditioned one. *)
Theorem no_conditioning_keeps_mean periods ln_psas ln_stds c minv :
  valid_input periods ln_psas ln_stds c →
  ma_count c = 0 →
  inv (Matrix 0 []) = Some minv →
  ∃ ln_stds_cmsv,
    calc_cond_mean_spectrum_vector correl inv periods ln_psas ln_stds c
    = Ok (ln_psas, ln_stds_cmsv).
Proof.
  intros Hv Hn Hinv. eexists.
  pose proof Hv as (Hinc & Hne & Hp & Hs & Hd & Hm).
  pose proof (count_masked_ma_count c) as Hsum. rewrite Hn in Hsum.
  destruct (shape_the_blocks correl periods ln_stds c)
    as (_ & (H12 & _) & _ & (H22r & H22c & _)); [congruence|].
  assert (mat_covar_22 (the_blocks correl periods ln_stds c) = Matrix 0 [])
    as Hblock.
  { destruct (mat_covar_22 _) as [k rows]. simpl in *.
    rewrite Hn in H22r, H22c. subst k. by destruct rows. }
  rewrite <-Hblock in Hinv.
  rewrite (calc_valid correl inv _ _ _ _ _ Hv Hinv).
  destruct (select_all_masked ln_psas (ma_mask c)) as [Hall Hnone];
    [done|congruence|].
  destruct (select_all_masked (ma_data c) (ma_mask c)) as [_ Hnone'];
    [done|congruence|].
  assert (masked_mean (the_blocks correl periods ln_stds c) minv ln_psas c
          = ln_psas) as Hmean.
  { unfold masked_mean. rewrite Hall, Hnone, Hnone'.
    change (zip_with sub [] []) with (np_zeros (F:=F) 0).
    rewrite matvec_zeros. apply zip_with_add_zeros.
    destruct (shape_matmul
                (mat_covar_12 (the_blocks correl periods ln_stds c)) minv _ H12)
      as (-> & _). lia. }
  pose proof (ungroup_select ln_psas (ma_mask c)) as Hu.
  rewrite Hall, Hnone in Hu. rewrite Hmean, Hnone', Hu by congruence. done.
Qed.

End special_cases.

(** ** The covariance matrix *)

Section covariance_facts.
Context {F : Type} `{Num F} `{!OrderLaws F} `{!SemiringLaws F}.
Variable correl : F → F → F.
Variable inv : matrix F → option (matrix F).
Implicit Types (periods ln_psas ln_stds v : list F) (c : masked_array F).

Lemma covariance_sym periods ln_stds i j :
  (∀ p q, correl p q = correl q p) →
  covariance correl periods ln_stds i j = covariance correl periods ln_stds j i.
Proof.
  intros Hsym. unfold covariance.
  by rewrite (mul_comm' (ln_stds !!! i)), (Hsym (periods !!! i)).
Qed.

Lemma transpose_cov_block periods ln_stds (rows cols : list nat) :
  (∀ p q, correl p q = correl q p) →
  transpose (cov_block correl periods ln_stds rows cols)
  = cov_block correl periods ln_stds cols rows.
Proof.
  intros Hsym. unfold transpose, cov_block. cbn [mrows mcols].
  rewrite length_fmap. f_equal.
  transitivity
    ((λ j, (λ i, covariance correl periods ln_stds j i) <$> rows)
       <$> ((λ k, cols !!! k) <$> seq 0 (length cols)));
    [|by rewrite fmap_lookup_total_seq].
  rewrite <-list_fmap_compose.
  apply list_fmap_ext. intros k' k Hk%lookup_seq. destruct Hk as [-> Hk].
  unfold column. cbn [mrows]. simpl. rewrite <-list_fmap_compose.
  apply list_fmap_ext. intros _ i _. simpl.
  rewrite (list_lookup_total_fmap
             (λ j, covariance correl periods ln_stds i j) cols k') by done.
  by apply covariance_sym.
Qed.

(** X9. With a symmetric correlation the covariance matrix of line 63 is
    symmetric, and its block [mat_covar_21] is the transpose of
    [mat_covar_12] (exact arithmetic). *)
Theorem covariance_symmetric periods ln_stds c :
  (∀ p q, correl p q = correl q p) →
  periods ≠ [] →
  length periods = length (ma_mask c) → length ln_stds = length (ma_mask c) →
  ∃ b, partition_covar correl periods ln_stds c = Ok b
       ∧ transpose (mat_covar b) = mat_covar b
       ∧ transpose (mat_covar_12 b) = mat_covar_21 b.
Proof.
  intros Hsym Hne Hp Hs. eexists. split; [by apply partition_covar_ok|].
  destruct (the_blocks_entries correl periods ln_stds c Hp Hs)
    as (_ & _ & -> & ->).
  split; [|by apply transpose_cov_block].
  cbn [mat_covar the_blocks]. rewrite grouped_covar_entries by done.
  by apply transpose_cov_block.
Qed.

(** X10. With a single conditioning period [k], whose 1×1 block has the
    inverse [[m]], the conditional log-mean at a free period [i] is
    [ln_psas[i] + cov(i, k) * m * (target[k] - ln_psas[k])]: the classical
    conditional mean spectrum (exact arithmetic). *)
Theorem single_conditioning_period periods ln_psas ln_stds c k m :
  valid_input periods ln_psas ln_stds c →
  cond_indices (ma_mask c) = [k] →
  inv (mat_covar_22 (the_blocks correl periods ln_stds c))
  = Some (Matrix 1 [[m]]) →
  ∃ ln_psas_cmsv ln_stds_cmsv,
    calc_cond_mean_spectrum_vector correl inv periods ln_psas ln_stds c
    = Ok (ln_psas_cmsv, ln_stds_cmsv)
    ∧ ∀ i, i ∈ free_indices (ma_mask c) →
        ln_psas_cmsv !! i
        = Some (add (ln_psas !!! i)
                  (mul (mul (covariance correl periods ln_stds i k) m)
                       (sub (ma_data c !!! k) (ln_psas !!! k)))).
Proof.
  intros Hv Hcond Hinv.
  eexists _, _. split; [by apply calc_valid|].
  destruct Hv as (Hinc & Hne & Hp & Hs & Hd & Hm).
  destruct (the_blocks_entries correl periods ln_stds c) as (_ & _ & H12 & _);
    [congruence..|].
  intros i [j Hj]%list_elem_of_lookup.
  rewrite (ungroup_lookup_free _ _ _ j i); [| | |done].
  2:{ apply length_masked_mean; congruence. }
  2:{ apply length_select_invert; congruence. }
  unfold masked_mean. rewrite H12, Hcond.
  rewrite (select_free_indices ln_psas), (select_cond_indices ln_psas),
    (select_cond_indices (ma_data c)) by congruence.
  rewrite Hcond. unfold matvec, matmul, cov_block. cbn [mrows mcols].
  rewrite <-!list_fmap_compose, zip_with_fmap_l, zip_with_fmap_r, zip_with_diag.
  rewrite list_lookup_fmap, Hj. simpl. unfold dot. simpl.
  by rewrite !add_zero_r.
Qed.

End covariance_facts.

(** * Properties of the Idriss (2014) response *)

Section idriss_facts.
Context {F : Type} `{Num F} `{!Elementary F}.
Implicit Types (small large : list (I14.coefficients (F:=F))).
Implicit Types (p : I14.params (F:=F)).

Lemma ln_resp_rows small large p :
  I14._calc_ln_resp small large p
  = I14.ln_resp_row p <$> I14.selected small large p.
Proof.
  unfold I14._calc_ln_resp, I14.selected. cbv zeta.
  induction (if leq _ _ then small else large) as [|r c IH]; [done|].
  unfold I14.arr_add, I14.arr_scale, I14.arr_neg in *. simpl.
  f_equal. exact IH.
Qed.

(** X11. The response at one period reads one row of one table: up to
    magnitude 6.75 the row of that period in the small-magnitude table, above
    6.75 its row in the large-magnitude table.  Whatever else the two tables
    hold (the other table, the rows of the other periods, how many rows
    follow) does not change the value at that period. *)
Theorem ln_resp_reads_one_row small large small' large' p i :
  (if leq (I14.mag p) (literal (27 # 4))
   then small !! i = small' !! i else large !! i = large' !! i) →
  I14._calc_ln_resp small large p !! i
  = I14._calc_ln_resp small' large' p !! i.
Proof.
  intros Hrow. rewrite !ln_resp_rows, !list_lookup_fmap.
  unfold I14.selected. destruct (leq _ _); by rewrite Hrow.
Qed.

(** X12. Every mechanism other than ["RS"] gives the response of ["SS"]:
    normal slip, unknown and misspelt mechanisms are all evaluated with
    [F = 0]. *)
Theorem ln_resp_not_reverse small large p :
  I14.mechanism p ≠ "RS"%string →
  I14._calc_ln_resp small large p
  = I14._calc_ln_resp small large (I14.with_mechanism p "SS").
Proof.
  intros Hm. unfold I14._calc_ln_resp, I14.with_mechanism. cbn [I14.mag
    I14.dist_rup I14.v_s30 I14.mechanism].
  unfold Idriss2014.flag_mech. by rewrite !decide_False.
Qed.

(** X13. Reverse slip adds the coefficient [phi] of each period to the
    strike-slip response (exact arithmetic). *)
Theorem ln_resp_reverse small large p :
  (∀ x : F, mul x (literal (1 # 1)) = x) →
  (∀ x : F, mul x (literal (0 # 1)) = zero) →
  (∀ x : F, add x zero = x) →
  I14._calc_ln_resp small large (I14.with_mechanism p "RS")
  = I14.arr_add (I14._calc_ln_resp small large (I14.with_mechanism p "SS"))
                (I14.phi <$> I14.selected small large p).
Proof.
  intros Hone Hzero Hadd. rewrite !ln_resp_rows.
  change (I14.selected small large (I14.with_mechanism p "RS"))
    with (I14.selected small large p).
  change (I14.selected small large (I14.with_mechanism p "SS"))
    with (I14.selected small large p).
  unfold I14.arr_add. rewrite zip_with_fmap_l, zip_with_fmap_r, zip_with_diag.
  apply list_fmap_ext. intros _ r _. unfold I14.ln_resp_row. simpl.
  change (inject_Z (Idriss2014.flag_mech "RS")) with (1 # 1)%Q.
  change (inject_Z (Idriss2014.flag_mech "SS")) with (0 # 1)%Q.
  by rewrite Hone, Hzero, Hadd.
Qed.

Context `{!OrderLaws F}.

Lemma ltb_irrefl (x : F) : ltb x x = false.
Proof.
  destruct (ltb x x) eqn:Hx; [|done]. by rewrite (ltb_asym x x Hx) in Hx.
Qed.

Lemma clip_above (x lo hi : F) :
  ltb lo hi = true → ltb hi x = true → I14.clip x lo hi = hi.
Proof.
  intros Hlh Hx. unfold I14.clip, I14.maximum, I14.minimum.
  destruct (ltb x lo) eqn:Hxl.
  - pose proof (ltb_trans _ _ _ (ltb_trans _ _ _ Hxl Hlh) Hx) as Hxx.
    by rewrite ltb_irrefl in Hxx.
  - by rewrite Hx.
Qed.

Lemma clip_below (x lo hi : F) :
  ltb lo hi = true → ltb x lo = true → I14.clip x lo hi = lo.
Proof.
  intros Hlh Hx. unfold I14.clip, I14.maximum, I14.minimum.
  by rewrite Hx, (ltb_asym _ _ Hlh).
Qed.

Lemma clip_upper (lo hi : F) : ltb lo hi = true → I14.clip hi lo hi = hi.
Proof.
  intros Hlh. unfold I14.clip, I14.maximum, I14.minimum.
  by rewrite (ltb_asym _ _ Hlh), ltb_irrefl.
Qed.

Lemma clip_lower (lo hi : F) : ltb lo hi = true → I14.clip lo lo hi = lo.
Proof.
  intros Hlh. unfold I14.clip, I14.maximum, I14.minimum.
  by rewrite ltb_irrefl, (ltb_asym _ _ Hlh).
Qed.

(** X14. [_calc_ln_std] saturates in magnitude: above 7.5 it is the standard
    deviation of magnitude 7.5, below 5 that of magnitude 5. *)
Theorem ln_std_magnitude_saturates small p (m : F) :
  ltb (literal (5 # 1)) (literal (15 # 2)) = true →
  (ltb (literal (15 # 2)) m = true →
   I14._calc_ln_std small (I14.with_mag p m)
   = I14._calc_ln_std small (I14.with_mag p (literal (15 # 2))))
  ∧ (ltb m (literal (5 # 1)) = true →
     I14._calc_ln_std small (I14.with_mag p m)
     = I14._calc_ln_std small (I14.with_mag p (literal (5 # 1)))).
Proof.
  intros Hlh. unfold I14._calc_ln_std, I14.with_mag. cbn [I14.mag]. split.
  - intros Hm. by rewrite (clip_above m), clip_upper.
  - intros Hm. by rewrite (clip_below m), clip_lower.
Qed.

Lemma ln_std_lookup small p i r :
  small !! i = Some r →
  I14._calc_ln_std small p !! i
  = Some (sub (add (literal (59 # 50))
                 (mul (literal (7 # 200))
                    (log (I14.clip (I14.period r) (literal (1 # 20))
                                   (literal (3 # 1))))))
            (mul (literal (3 # 50))
               (I14.clip (I14.mag p) (literal (5 # 1)) (literal (15 # 2))))).
Proof.
  intros Hi. unfold I14._calc_ln_std, I14.arr_sub_scalar, I14.scalar_add,
    I14.scalar_scale, I14.PERIODS.
  by rewrite !list_lookup_fmap, Hi.
Qed.

(** X15. [_calc_ln_std] saturates in period: all periods at or below 0.05 s
    have one standard deviation, and so have all periods at or above 3 s. *)
Theorem ln_std_period_saturates small p i j r r' :
  ltb (literal (1 # 20)) (literal (3 # 1)) = true →
  small !! i = Some r → small !! j = Some r' →
  (I14.at_or_below (I14.period r) (literal (1 # 20))
   ∧ I14.at_or_below (I14.period r') (literal (1 # 20)))
  ∨ (I14.at_or_above (I14.period r) (literal (3 # 1))
     ∧ I14.at_or_above (I14.period r') (literal (3 # 1))) →
  I14._calc_ln_std small p !! i = I14._calc_ln_std small p !! j.
Proof.
  intros Hlh Hi Hj Hsat.
  rewrite (ln_std_lookup _ _ _ _ Hi), (ln_std_lookup _ _ _ _ Hj).
  assert (I14.clip (I14.period r) (literal (1 # 20)) (literal (3 # 1))
          = I14.clip (I14.period r') (literal (1 # 20)) (literal (3 # 1)))
    as ->; [|done].
  destruct Hsat as [[Hr Hr']|[Hr Hr']].
  - transitivity (literal (1 # 20) : F).
    + destruct Hr as [Hr| ->]; [by apply clip_below|by apply clip_lower].
    + destruct Hr' as [Hr'| ->]; [by rewrite clip_below|by rewrite clip_lower].
  - transitivity (literal (3 # 1) : F).
    + destruct Hr as [Hr| ->]; [by apply clip_above|by apply clip_upper].
    + destruct Hr' as [Hr'| ->]; [by rewrite clip_above|by rewrite clip_upper].
Qed.

End idriss_facts.

(** ** The further properties on the rationals *)

Import ExactElementary.

Lemma Qc_ltb_asym (x y : Qc) : Qc_ltb x y = true → Qc_ltb y x = false.
Proof. intros Hxy. exact (ltb_asym (F:=Qc) x y Hxy). Qed.

Lemma rho_sym (p r : Qc) : rho p r = rho r p.
Proof.
  unfold rho. destruct (Qc_dec p r) as [[Hlt|Hlt]|Heq].
  - apply Qc_ltb_lt in Hlt. by rewrite Hlt, (Qc_ltb_asym _ _ Hlt).
  - apply Qc_ltb_lt in Hlt. by rewrite Hlt, (Qc_ltb_asym _ _ Hlt).
  - by subst.
Qed.

Lemma Qc_sub_diag (x : Qc) : sub x x = zero.
Proof. apply Qcplus_opp_r. Qed.

Lemma valid_target_on_mean :
  valid_input periods5 ln_psas5 ln_stds5 target_on_mean.
Proof. split_and!; [apply periods5_increasing|done..]. Qed.

Lemma valid_no_targets : valid_input periods5 ln_psas5 ln_stds5 no_targets.
Proof. split_and!; [apply periods5_increasing|done..]. Qed.

Lemma valid_other_means :
  valid_input periods5 [q 0 1; q 1 1; q 2 1; q 3 1; q 4 1] ln_stds5
    target_at_half'.
Proof. split_and!; [apply periods5_increasing|done..]. Qed.

Lemma valid_outcome_witness :
  let block := mat_covar_22 (the_blocks rho periods5 ln_stds5 target_at_half) in
  (inv block = None
   ↔ calc_cond_mean_spectrum_vector rho inv periods5 ln_psas5 ln_stds5
       target_at_half
     = Raise LinAlgError)
  ∧ (is_Some (inv block)
     ↔ ∃ r, calc_cond_mean_spectrum_vector rho inv periods5 ln_psas5 ln_stds5
              target_at_half
            = Ok r).
Proof.
  apply (valid_outcome rho inv periods5 ln_psas5 ln_stds5 target_at_half).
  apply valid_target_at_half.
Defined.

Lemma mask_length_mismatch_witness :
  calc_cond_mean_spectrum_vector rho inv periods5 ln_psas5 ln_stds5
    (MaskedArray [q 0 1; q (-3) 2; q 0 1] [true; false; true])
  = Raise IndexError.
Proof.
  apply (mask_length_mismatch rho inv periods5 ln_psas5 ln_stds5).
  - apply periods5_increasing.
  - left. simpl. lia.
Defined.

Lemma ln_psas_length_mismatch_witness :
  calc_cond_mean_spectrum_vector rho inv periods5 [q (-1) 1; q (-2) 1] ln_stds5
    target_at_half
  = match inv (mat_covar_22 (the_blocks rho periods5 ln_stds5 target_at_half))
    with
    | Some _ => Raise IndexError
    | None => Raise LinAlgError
    end.
Proof.
  apply (ln_psas_length_mismatch rho inv periods5 [q (-1) 1; q (-2) 1]
           ln_stds5 target_at_half).
  - apply periods5_increasing.
  - done.
  - reflexivity.
  - reflexivity.
  - simpl. lia.
Defined.

Lemma stds_independent_of_means_witness :
  ∃ ln_psas_cmsv ln_psas_cmsv' ln_stds_cmsv,
    calc_cond_mean_spectrum_vector rho inv periods5 ln_psas5 ln_stds5
      target_at_half
    = Ok (ln_psas_cmsv, ln_stds_cmsv)
    ∧ calc_cond_mean_spectrum_vector rho inv periods5
        [q 0 1; q 1 1; q 2 1; q 3 1; q 4 1] ln_stds5 target_at_half'
      = Ok (ln_psas_cmsv', ln_stds_cmsv).
Proof.
  eapply (stds_independent_of_means rho inv periods5 ln_psas5
            [q 0 1; q 1 1; q 2 1; q 3 1; q 4 1] ln_stds5
            target_at_half target_at_half').
  - apply valid_target_at_half.
  - apply valid_other_means.
  - reflexivity.
  - vm_compute. reflexivity.
Defined.

Lemma grouping_is_permutation_witness :
  ∃ b, partition_covar rho periods5 ln_stds5 target_at_half = Ok b
       ∧ periods_grouped b ≡ₚ periods5
       ∧ n_masked b + ma_count target_at_half = length periods5.
Proof.
  apply (grouping_is_permutation rho periods5 ln_stds5 target_at_half); done.
Defined.

Lemma targets_on_the_mean_witness :
  ∃ ln_stds_cmsv,
    calc_cond_mean_spectrum_vector rho inv periods5 ln_psas5 ln_stds5
      target_on_mean
    = Ok (ln_psas5, ln_stds_cmsv).
Proof.
  eapply (targets_on_the_mean rho inv periods5 ln_psas5 ln_stds5
            target_on_mean).
  - apply Qc_sub_diag.
  - apply valid_target_on_mean.
  - done.
  - vm_compute. reflexivity.
Defined.

Lemma no_conditioning_keeps_mean_witness :
  ∃ ln_stds_cmsv,
    calc_cond_mean_spectrum_vector rho inv periods5 ln_psas5 ln_stds5
      no_targets
    = Ok (ln_psas5, ln_stds_cmsv).
Proof.
  eapply (no_conditioning_keeps_mean rho inv periods5 ln_psas5 ln_stds5
            no_targets).
  - apply valid_no_targets.
  - reflexivity.
  - reflexivity.
Defined.

Lemma covariance_symmetric_witness :
  ∃ b, partition_covar rho periods5 ln_stds5 target_at_half = Ok b
       ∧ transpose (mat_covar b) = mat_covar b
       ∧ transpose (mat_covar_12 b) = mat_covar_21 b.
Proof.
  apply (covariance_symmetric rho periods5 ln_stds5 target_at_half).
  - apply rho_sym.
  - done.
  - reflexivity.
  - reflexivity.
Defined.

Lemma single_conditioning_period_witness :
  ∃ m ln_psas_cmsv ln_stds_cmsv,
    inv (mat_covar_22 (the_blocks rho periods5 ln_stds5 target_at_half))
    = Some (Matrix 1 [[m]])
    ∧ calc_cond_mean_spectrum_vector rho inv periods5 ln_psas5 ln_stds5
        target_at_half
      = Ok (ln_psas_cmsv, ln_stds_cmsv)
    ∧ ∀ i, i ∈ free_indices (ma_mask target_at_half) →
        ln_psas_cmsv !! i
        = Some (add (ln_psas5 !!! i)
                  (mul (mul (covariance rho periods5 ln_stds5 i 2) m)
                       (sub (ma_data target_at_half !!! 2) (ln_psas5 !!! 2)))).
Proof.
  assert (∃ m, inv (mat_covar_22
                      (the_blocks rho periods5 ln_stds5 target_at_half))
               = Some (Matrix 1 [[m]])) as [m Hinv]
    by (eexists; vm_compute; reflexivity).
  destruct (single_conditioning_period rho inv periods5 ln_psas5 ln_stds5
              target_at_half 2 m valid_target_at_half eq_refl Hinv)
    as (psas & stds & Hcalc & Hfree).
  exists m, psas, stds. split_and!; [exact Hinv|exact Hcalc|exact Hfree].
Defined.

Lemma ln_resp_reads_one_row_witness :
  I14._calc_ln_resp small4 large4 (event (13 # 2) "SS") !! 0
  = I14._calc_ln_resp (take 1 small4) [] (event (13 # 2) "SS") !! 0
  ∧ I14._calc_ln_resp small4 large4 (event (7 # 1) "SS") !! 3
    = I14._calc_ln_resp [] (take 2 small4 ++ drop 2 large4)
        (event (7 # 1) "SS") !! 3.
Proof.
  split.
  - apply (ln_resp_reads_one_row small4 large4 (take 1 small4) []
             (event (13 # 2) "SS") 0).
    reflexivity.
  - apply (ln_resp_reads_one_row small4 large4 []
             (take 2 small4 ++ drop 2 large4) (event (7 # 1) "SS") 3).
    reflexivity.
Defined.

Lemma ln_resp_not_reverse_witness :
  I14._calc_ln_resp small4 large4 (event (13 # 2) "NS")
  = I14._calc_ln_resp small4 large4 (event (13 # 2) "SS").
Proof.
  apply (ln_resp_not_reverse small4 large4 (event (13 # 2) "NS")). done.
Defined.

Lemma ln_resp_reverse_witness :
  I14._calc_ln_resp small4 large4 (event (7 # 1) "RS")
  = I14.arr_add (I14._calc_ln_resp small4 large4 (event (7 # 1) "SS"))
                (I14.phi <$> I14.selected small4 large4 (event (7 # 1) "NS")).
Proof.
  apply (ln_resp_reverse small4 large4 (event (7 # 1) "NS")).
  - apply Qcmult_1_r.
  - apply Qcmult_0_r.
  - apply Qcplus_0_r.
Defined.

Lemma ln_std_magnitude_saturates_witness :
  I14._calc_ln_std small4
    (I14.with_mag (event (13 # 2) "SS") (literal (8 # 1)))
  = I14._calc_ln_std small4
      (I14.with_mag (event (13 # 2) "SS") (literal (15 # 2)))
  ∧ I14._calc_ln_std small4
      (I14.with_mag (event (13 # 2) "SS") (literal (4 # 1)))
    = I14._calc_ln_std small4
        (I14.with_mag (event (13 # 2) "SS") (literal (5 # 1))).
Proof.
  assert (ltb (F:=Qc) (literal (5 # 1)) (literal (15 # 2)) = true) as Hlh
    by reflexivity.
  destruct (ln_std_magnitude_saturates small4 (event (13 # 2) "SS")
              (literal (8 # 1)) Hlh) as [Habove _].
  destruct (ln_std_magnitude_saturates small4 (event (13 # 2) "SS")
              (literal (4 # 1)) Hlh) as [_ Hbelow].
  split; [apply Habove|apply Hbelow]; reflexivity.
Defined.

Lemma ln_std_period_saturates_witness :
  I14._calc_ln_std small4 (event (13 # 2) "SS") !! 0
  = I14._calc_ln_std small4 (event (13 # 2) "SS") !! 1.
Proof.
  eapply (ln_std_period_saturates small4 (event (13 # 2) "SS") 0 1).
  - reflexivity.
  - reflexivity.
  - reflexivity.
  - left. split; left; reflexivity.
Defined.

(** ** The variances on the diagonal *)

Section diagonal_facts.
Context {F : Type} `{Num F} `{!SemiringLaws F}.
Variable correl : F → F → F.
Implicit Types (periods ln_stds : list F) (c : masked_array F).

Lemma shape_cov_block periods ln_stds (rows cols : list nat) :
  shape (cov_block correl periods ln_stds rows cols) (length rows) (length cols).
Proof.
  repeat split; simpl; [by rewrite length_fmap|].
  apply Forall_fmap, Forall_true. intros i. simpl. by rewrite length_fmap.
Qed.

(** X16. With a correlation that is 1 between a period and itself, the
    diagonal of the covariance matrix of line 63 holds the squares of the
    standard deviations, in the grouped order (exact arithmetic). *)
Theorem covariance_diagonal periods ln_stds c :
  (∀ p x, mul x (correl p p) = x) →
  periods ≠ [] →
  length periods = length (ma_mask c) → length ln_stds = length (ma_mask c) →
  ∃ b, partition_covar correl periods ln_stds c = Ok b
       ∧ diagonal (mat_covar b) = (λ s, mul s s) <$> grouped ln_stds (ma_mask c).
Proof.
  intros Hone Hne Hp Hs. eexists. split; [by apply partition_covar_ok|].
  cbn [mat_covar the_blocks].
  rewrite grouped_covar_entries, (grouped_indices ln_stds) by done.
  set (G := free_indices (ma_mask c) ++ cond_indices (ma_mask c)).
  rewrite (diagonal_square _ (length G)) by apply shape_cov_block.
  apply list_eq. intros i. unfold cov_block. cbn [mrows].
  rewrite list_lookup_imap, !list_lookup_fmap.
  destruct (G !! i) as [a|] eqn:Ha; [|done]. simpl. f_equal.
  rewrite (list_lookup_total_fmap
             (λ j, covariance correl periods ln_stds a j) G i)
    by (by eapply lookup_lt_Some).
  rewrite (list_lookup_total_correct _ _ _ Ha).
  unfold covariance. apply Hone.
Qed.

End diagonal_facts.

Lemma rho_diag (p x : Qc) : mul x (rho p p) = x.
Proof.
  unfold rho. destruct (Qc_ltb p p); unfold Qcminus;
    rewrite Qcplus_opp_r, Qcplus_0_r; apply Qcmult_1_r.
Qed.

Lemma covariance_diagonal_witness :
  ∃ b, partition_covar rho periods5 ln_stds5 target_at_half = Ok b
       ∧ diagonal (mat_covar b)
         = (λ s, mul s s) <$> grouped ln_stds5 (ma_mask target_at_half).
Proof.
  apply (covariance_diagonal rho periods5 ln_stds5 target_at_half).
  - apply rho_diag.
  - done.
  - reflexivity.
  - reflexivity.
Defined.
